(** * Retirement math game: seeded scenarios, finance engine and grader

    A shallow embedding of the practice-game core of
    [src/components/BAIIHowToModule.tsx] (with the parsing helpers of
    [src/utils/formatters.ts] that the same module calls).

    Numbers.  JavaScript numbers are IEEE doubles.  The embedding uses
    - [Z] for every value that the source keeps integral (seeds, the
      generator state, the output of the 32-bit mixer, indices, years),
      with the 32-bit wrap-around of [>>>], [^], [|] and [Math.imul]
      written out;
    - [Q] (exact rationals) for money and rates.  Rounding of doubles is
      not modelled; a division by zero, which yields an infinity or NaN in
      JavaScript, is outside the model, and the theorems that would
      depend on one carry the hypothesis that excludes it;
    - [jsnum], a rational or [NaN], for the one place where the source
      manufactures a NaN by itself: [parseFloat] on a submitted answer;
    - binary64 itself (module [F64]) for the engine, to evaluate it
      where rounding decides the answer.  A property of the engine that
      rounding or overflow can break is stated for an ordinary range of
      rates, years and amounts, inside which neither occurs. *)

From Stdlib Require Import ZArith QArith Qround Qabs Qpower Lia Lqa Bool List.
From Stdlib Require Import Ascii String.
From Stdlib Require Import Floats.
From stdpp Require Import gmap strings.
Import ListNotations.

Local Open Scope Z_scope.

(** ** 32-bit integer operations of JavaScript *)

Module Int32.

Definition two32 : Z := 4294967296.
Definition two31 : Z := 2147483648.

(** [ToUint32]: what [x >>> 0] returns. *)
Definition toUint32 (x : Z) : Z := x mod two32.

(** [ToInt32]: the signed reading every bit operator applies first. *)
Definition toInt32 (x : Z) : Z :=
  let u := x mod two32 in
  if u <? two31 then u else u - two32.

(** [a ^ b] *)
Definition xor (a b : Z) : Z := Z.lxor (toInt32 a) (toInt32 b).

(** [a | b] *)
Definition or (a b : Z) : Z := Z.lor (toInt32 a) (toInt32 b).

(** [a >>> n], for a shift count [0 <= n < 32] *)
Definition ushr (a n : Z) : Z := Z.shiftr (toUint32 a) n.

(** [Math.imul(a, b)] *)
Definition imul (a b : Z) : Z := toInt32 (toInt32 a * toInt32 b).

End Int32.

(** ** Seed deriver *)

Definition GOLD : Z := 0x9E3779B9.

(** [function splitSeed(base, idx)
      { const GOLD = 0x9E3779B9;
        return (base ^ Math.imul(idx + 1, GOLD)) >>> 0; }] *)
Definition splitSeed (base idx : Z) : Z :=
  Int32.toUint32 (Int32.xor base (Int32.imul (idx + 1) GOLD)).

(** ** Deterministic PRNG *)

(** The generator returned by [mulberry32] is a closure over one mutable
    number [t].  A computation that draws from it is a function from the
    current [t] to a result and the next [t]. *)
Definition Rng (A : Type) : Type := Z -> A * Z.

Definition ret {A : Type} (a : A) : Rng A := fun t => (a, t).

Definition bind {A B : Type} (m : Rng A) (k : A -> Rng B) : Rng B :=
  fun t => let (a, t') := m t in k a t'.

Notation "'let*' x ':=' m 'in' k" := (bind m (fun x => k))
  (at level 10, x pattern, m at level 100, k at level 200).

(** The state after [let t = a >>> 0]. *)
Definition mulberry32 (a : Z) : Z := Int32.toUint32 a.

(** One call of the closure, up to (and without) the final division:
    [t += 0x6D2B79F5;
     let r = Math.imul(t ^ (t >>> 15), 1 | t);
     r ^= r + Math.imul(r ^ (r >>> 7), 61 | r);
     ... ((r ^ (r >>> 14)) >>> 0)].
    [t] itself is never truncated by the source; only its uses are. *)
Definition mulberry32_bits : Rng Z := fun t =>
  let t := t + 0x6D2B79F5 in
  let r := Int32.imul (Int32.xor t (Int32.ushr t 15)) (Int32.or 1 t) in
  let r := Int32.xor r (r + Int32.imul (Int32.xor r (Int32.ushr r 7)) (Int32.or 61 r)) in
  (Int32.toUint32 (Int32.xor r (Int32.ushr r 14)), t).

(** [rng()]: the 32 bits divided by [4294967296]. *)
Definition rng : Rng Q :=
  let* k := mulberry32_bits in ret (inject_Z k / inject_Z Int32.two32)%Q.

(** [lo + Math.floor(rng() * (hi - lo + 1))] *)
Definition randInt (lo hi : Z) : Rng Z :=
  let* u := rng in ret (lo + Qfloor (u * inject_Z (hi - lo + 1))).

(** [lo + rng() * (hi - lo)] *)
Definition randFloat (lo hi : Q) : Rng Q :=
  let* u := rng in ret (lo + u * (hi - lo))%Q.

(** ** Numeric helpers of the host language *)

Definition Qlt_b (x y : Q) : bool := negb (Qle_bool y x).

(** [Math.max(a, b)] *)
Definition Math_max (a b : Q) : Q := if Qle_bool a b then b else a.

(** [Math.round(x)]: the nearest integer, halves upwards. *)
Definition Math_round (x : Q) : Z := Qfloor (x + 1 / 2)%Q.

(** ** Finance engine *)

Inductive Timing : Set := END | BEGIN.

Definition computeRealRate (r g : Q) : Q := ((1 + r) / (1 + g) - 1)%Q.

Definition capitalAnnuity (pmt1 rReal : Q) (RLE : Z) : Q :=
  if Qlt_b (Qabs rReal) 1e-12 then (pmt1 * inject_Z RLE)%Q
  else
    let factor := ((1 - (1 + rReal) ^ (- RLE)) / rReal)%Q in
    (pmt1 * factor * (1 + rReal))%Q.

Definition capitalCPM (capA r : Q) (RLE : Z) : Q :=
  (capA / (1 - (1 + r) ^ (- RLE)))%Q.

Definition capitalPPPM (capA r g : Q) (RLE : Z) : Q :=
  let ratio := ((1 + g) / (1 + r))%Q in
  (capA / (1 - ratio ^ RLE))%Q.

Definition annualSavings (PVcur K r : Q) (N : Z) (timing : Timing) : Q :=
  let FVexist := (PVcur * (1 + r) ^ N)%Q in
  let need := (K - FVexist)%Q in
  if Qle_bool need 0 then 0%Q
  else
    let pmtEnd :=
      if Qlt_b (Qabs r) 1e-12 then (need / inject_Z N)%Q
      else (need / (((1 + r) ^ N - 1) / r))%Q in
    match timing with
    | BEGIN => (pmtEnd / (1 + r))%Q
    | END => pmtEnd
    end.

(** ** Scenarios *)

Inductive Difficulty : Set := easy | normal | hard.

Record Ranges : Set := {
  rg_income : Z * Z;  rg_wrr : Q * Q;  rg_ss : Z * Z;
  rg_rwle : Z * Z;    rg_rle : Z * Z;  rg_g : Q * Q;
  rg_r : Q * Q;       rg_pvcur : Z * Z }.

Definition RANGES (d : Difficulty) : Ranges :=
  match d with
  | easy =>
      {| rg_income := (50000, 90000); rg_wrr := (0.65, 0.85)%Q;
         rg_ss := (12000, 28000); rg_rwle := (15, 25); rg_rle := (20, 30);
         rg_g := (0.02, 0.035)%Q; rg_r := (0.06, 0.09)%Q;
         rg_pvcur := (0, 50000) |}
  | normal =>
      {| rg_income := (60000, 120000); rg_wrr := (0.7, 0.85)%Q;
         rg_ss := (15000, 30000); rg_rwle := (20, 35); rg_rle := (20, 35);
         rg_g := (0.02, 0.04)%Q; rg_r := (0.07, 0.1)%Q;
         rg_pvcur := (0, 200000) |}
  | hard =>
      {| rg_income := (80000, 180000); rg_wrr := (0.7, 0.9)%Q;
         rg_ss := (15000, 40000); rg_rwle := (10, 35); rg_rle := (20, 35);
         rg_g := (0.025, 0.045)%Q; rg_r := (0.07, 0.11)%Q;
         rg_pvcur := (0, 400000) |}
  end.

(** [type GameScenario].  The years are kept in [Z]: both producers
    ([randInt] and [parseInteger]) make integers, and they are used as
    exponents. *)
Record GameScenario : Set := {
  name : string;  bio : string;
  income : Q;  wrr : Q;  ss : Q;
  rwle : Z;  rle : Z;
  g : Q;  r : Q;  pvcur : Q;
  rRetire : option Q;
  bequest : option Q }.

Record GameTruth : Set := {
  need_today : Q;  PMT1 : Q;  r_real : Q;  capA : Q;
  keepCPM : Q;  totalCPM : Q;  keepPPPM : Q;  totalPPPM : Q;
  svA : Q;  svCPM : Q;  svPPPM : Q }.

(** [choices[i]] for an array of numbers; the default stands for the
    [undefined] of an index out of range, which no caller produces. *)
Definition pick (choices : list Q) (i : Z) : Q := nth (Z.to_nat i) choices 0%Q.

Definition pick_string (choices : list string) (i : Z) : string :=
  nth (Z.to_nat i) choices EmptyString.

Definition wrrChoices : list Q := [0.70; 0.75; 0.80; 0.85]%Q.
Definition gChoices : list Q := [0.020; 0.025; 0.030; 0.035]%Q.
Definition rChoices : list Q := [0.060; 0.070; 0.080; 0.090]%Q.

Definition NAMES : list string :=
  ["Alex"; "Jordan"; "Taylor"; "Morgan"; "Riley"; "Casey"; "Drew"]%string.
Definition LAST : list string :=
  ["Reeves"; "Kim"; "Singh"; "Garcia"; "Patel"; "Lee"]%string.
Definition BIOS : list string :=
  ["Analyst planning hikes."; "Small business owner plan.";
   "Teacher traveler."; "Engineer optimizer."]%string.

(** ** Scenario generator *)

(** The block [if (difficulty === "easy") { ... }]: three more draws and
    the rounding of the generic draws.  It returns the locals it
    reassigns, in the order income, wrr, ss, rwle, rle, g, r, pvcur. *)
Definition easy_override (income ss rwle rle : Z)
  : Rng (Z * Q * Z * Z * Z * Q * Q * Z) :=
  let* iw := randInt 0 (Z.of_nat (length wrrChoices) - 1) in
  let wrr := pick wrrChoices iw in
  let* ig := randInt 0 (Z.of_nat (length gChoices) - 1) in
  let g := pick gChoices ig in
  let* ir := randInt 0 (Z.of_nat (length rChoices) - 1) in
  let r := pick rChoices ir in
  let r := if Qle_bool r g then (g + 0.005)%Q else r in
  let income := Math_round (inject_Z income / 1000) * 1000 in
  let ss := Math_round (inject_Z ss / 1000) * 1000 in
  let rwle := Math_round (inject_Z rwle / 5) * 5 in
  let rle := Math_round (inject_Z rle / 5) * 5 in
  let pvcur := 0 in
  ret (income, wrr, ss, rwle, rle, g, r, pvcur).

(** The first [if (difficulty === "hard")] block. *)
Definition hard_rRetire (g r : Q) : Rng Q :=
  let* delta := randFloat (-0.02) 0.02 in
  let rRetire := Math_max 0 (r + delta) in
  let rRetire := if Qle_bool rRetire g then (g + 0.0005)%Q else rRetire in
  ret rRetire.

(** The second [if (difficulty === "hard")] block. *)
Definition hard_bequest (income wrr ss : Q) (rwle rle : Z) (g r : Q)
    (rRetire : option Q) : Rng Q :=
  let rDuring := match rRetire with Some x => x | None => r end in
  let need_today := Math_max 0 (wrr * income - ss) in
  let PMT1 := (need_today * (1 + g) ^ rwle)%Q in
  let r_real := computeRealRate rDuring g in
  let capA_est := capitalAnnuity PMT1 r_real rle in
  let* ratio := randFloat 0.05 0.25 in
  ret (Math_max 0 (inject_Z (Math_round ((capA_est * ratio) / 1000) * 1000))).

Definition generateScenario_draws (difficulty : Difficulty) : Rng GameScenario :=
  let ranges := RANGES difficulty in
  let* income := randInt (fst (rg_income ranges)) (snd (rg_income ranges)) in
  let* wrr := randFloat (fst (rg_wrr ranges)) (snd (rg_wrr ranges)) in
  let* ss := randInt (fst (rg_ss ranges)) (snd (rg_ss ranges)) in
  let* rwle := randInt (fst (rg_rwle ranges)) (snd (rg_rwle ranges)) in
  let* rle := randInt (fst (rg_rle ranges)) (snd (rg_rle ranges)) in
  let* g := randFloat (fst (rg_g ranges)) (snd (rg_g ranges)) in
  let* r := randFloat (fst (rg_r ranges)) (snd (rg_r ranges)) in
  let r := if Qle_bool r g then (g + 0.0005)%Q else r in
  let* pvcur := randInt (fst (rg_pvcur ranges)) (snd (rg_pvcur ranges)) in
  let* (income, wrr, ss, rwle, rle, g, r, pvcur) :=
    match difficulty with
    | easy => easy_override income ss rwle rle
    | _ => ret (income, wrr, ss, rwle, rle, g, r, pvcur)
    end in
  let* rRetire :=
    match difficulty with
    | hard => let* x := hard_rRetire g r in ret (Some x)
    | _ => ret None
    end in
  let* bequest :=
    match difficulty with
    | hard =>
        let* b := hard_bequest (inject_Z income) wrr (inject_Z ss)
                    rwle rle g r rRetire in
        ret (Some b)
    | _ => ret None
    end in
  let* i_name := randInt 0 (Z.of_nat (length NAMES) - 1) in
  let* i_last := randInt 0 (Z.of_nat (length LAST) - 1) in
  let name := (pick_string NAMES i_name ++ " " ++ pick_string LAST i_last)%string in
  let* i_bio := randInt 0 (Z.of_nat (length BIOS) - 1) in
  let bio := pick_string BIOS i_bio in
  ret {| name := name; bio := bio;
         income := inject_Z income; wrr := wrr; ss := inject_Z ss;
         rwle := rwle; rle := rle; g := g; r := r;
         pvcur := inject_Z pvcur; rRetire := rRetire; bequest := bequest |}.

(** [function generateScenarioFromSeed(baseSeed, difficulty)]: the draws
    above, run on [mulberry32(baseSeed >>> 0)]. *)
Definition generateScenarioFromSeed (baseSeed : Z) (difficulty : Difficulty)
  : GameScenario :=
  fst (generateScenario_draws difficulty (mulberry32 (Int32.toUint32 baseSeed))).

(** ** Truth *)

(** [function computeGameTruth(scn, timing)].  [scn.bequest ? a : b] takes
    the second branch for a missing bequest and for a bequest of zero. *)
Definition computeGameTruth (scn : GameScenario) (timing : Timing) : GameTruth :=
  let need_today := Math_max 0 (wrr scn * income scn - ss scn) in
  let PMT1 := (need_today * (1 + g scn) ^ rwle scn)%Q in
  let rDuring := match rRetire scn with Some x => x | None => r scn end in
  let r_real := computeRealRate rDuring (g scn) in
  let bequestPV :=
    match bequest scn with
    | Some b => if Qeq_bool b 0 then 0%Q else (b / (1 + r_real) ^ rle scn)%Q
    | None => 0%Q
    end in
  let capA := (capitalAnnuity PMT1 r_real (rle scn) + bequestPV)%Q in
  let keepCPM := (capA / (1 + rDuring) ^ rle scn)%Q in
  let totalCPM := (capA + keepCPM)%Q in
  let keepPPPM := (capA / (1 + r_real) ^ rle scn)%Q in
  let totalPPPM := (capA + keepPPPM)%Q in
  let svA := annualSavings (pvcur scn) capA (r scn) (rwle scn) timing in
  let svCPM := annualSavings (pvcur scn) totalCPM (r scn) (rwle scn) timing in
  let svPPPM := annualSavings (pvcur scn) totalPPPM (r scn) (rwle scn) timing in
  {| need_today := need_today; PMT1 := PMT1; r_real := r_real; capA := capA;
     keepCPM := keepCPM; totalCPM := totalCPM;
     keepPPPM := keepPPPM; totalPPPM := totalPPPM;
     svA := svA; svCPM := svCPM; svPPPM := svPPPM |}.

(** ** Grader *)

(** A JavaScript number as the grader sees it: a rational, or the NaN
    that [parseFloat] returns for a string with no numeric prefix. *)
Inductive jsnum : Set := NaN | Fin (q : Q).

Definition js_sub (a b : jsnum) : jsnum :=
  match a, b with Fin x, Fin y => Fin (x - y) | _, _ => NaN end.

(** [a / b]; the grader divides only after testing [b !== 0]. *)
Definition js_div (a b : jsnum) : jsnum :=
  match a, b with Fin x, Fin y => Fin (x / y) | _, _ => NaN end.

Definition js_abs (a : jsnum) : jsnum :=
  match a with Fin x => Fin (Qabs x) | NaN => NaN end.

(** Every comparison with NaN is false. *)
Definition js_le (a b : jsnum) : bool :=
  match a, b with Fin x, Fin y => Qle_bool x y | _, _ => false end.

Definition js_gt (a b : jsnum) : bool :=
  match a, b with Fin x, Fin y => Qlt_b y x | _, _ => false end.

(** [a === 0] *)
Definition js_is_zero (a : jsnum) : bool :=
  match a with Fin x => Qeq_bool x 0 | NaN => false end.

Inductive Status : Set := correct | incorrect.

(** The inner function of [grade]. *)
Definition gradeOne (userVal truthVal : jsnum) : Status :=
  let absErr := js_abs (js_sub userVal truthVal) in
  let pctErr :=
    if js_is_zero truthVal
    then (if js_gt absErr (Fin 0) then Fin 1 else Fin 0)
    else js_abs (js_div absErr truthVal) in
  let tolDollar := Fin 500 in
  let tolPctStrict := Fin 0.01 in
  if js_le pctErr tolPctStrict || js_le absErr tolDollar
  then correct else incorrect.

(** *** Reading a submitted answer *)

Definition is_digit (c : ascii) : bool :=
  ((48 <=? N_of_ascii c) && (N_of_ascii c <=? 57))%N.

Definition digit_value (c : ascii) : Z := Z.of_N (N_of_ascii c) - 48.

(** The characters that the pattern [[^0-9.\-]] does not match. *)
Definition numeric_char (c : ascii) : bool :=
  is_digit c || Ascii.eqb c "." || Ascii.eqb c "-".

(** [s.replace(/[^0-9.\-]/g, "")] *)
Fixpoint strip_non_numeric (s : string) : string :=
  match s with
  | EmptyString => EmptyString
  | String c s' =>
      if numeric_char c then String c (strip_non_numeric s')
      else strip_non_numeric s'
  end.

(** The longest run of decimal digits at the head of a string, and what
    follows it. *)
Fixpoint span_digits (s : string) : list Z * string :=
  match s with
  | String c s' =>
      if is_digit c
      then let (ds, rest) := span_digits s' in (digit_value c :: ds, rest)
      else ([], s)
  | EmptyString => ([], EmptyString)
  end.

Definition digits_value (ds : list Z) : Z :=
  fold_left (fun acc d => 10 * acc + d) ds 0.

(** [parseFloat] on a string of digits, dots and minus signs (everything
    else has been stripped before the call, so that white space, [+],
    exponents and [Infinity] cannot occur): an optional minus, digits,
    optionally a dot and digits; the longest such prefix is the value,
    and NaN when it holds no digit. *)
Definition parseFloat (s : string) : jsnum :=
  let (neg, s1) :=
    match s with
    | String "-"%char s' => (true, s')
    | _ => (false, s)
    end in
  let (ip, s2) := span_digits s1 in
  let fp :=
    match s2 with
    | String "."%char s3 => fst (span_digits s3)
    | _ => []
    end in
  match ip, fp with
  | [], [] => NaN
  | _, _ =>
      let v := (inject_Z (digits_value ip)
                + inject_Z (digits_value fp) / inject_Z (10 ^ Z.of_nat (length fp)))%Q in
      Fin (if neg then (- v)%Q else v)
  end.

(** [(answers[key] || "0")]: a missing entry and the empty string are
    both falsy. *)
Definition answer_or_zero (answers : gmap string string) (key : string) : string :=
  match answers !! key with
  | Some EmptyString | None => "0"%string
  | Some s => s
  end.

(** [parseFloat((answers[key] || "0").toString().replace(/[^0-9.\-]/g, ""))] *)
Definition read_answer (answers : gmap string string) (key : string) : jsnum :=
  parseFloat (strip_non_numeric (answer_or_zero answers key)).

(** [parseCurrencyToNumber] of [utils/formatters.ts], the sibling used for
    the free-entry fields: the same strip and parse, then
    [isFinite(n) ? n : 0]. *)
Definition parseCurrencyToNumber (input : string) : Q :=
  match parseFloat (strip_non_numeric input) with
  | Fin q => q
  | NaN => 0%Q
  end.

Inductive Method : Set := ann | cpm | pppm.

(** The record [res] that [grade] builds and hands to [setStatuses]. *)
Definition grade (activeMethod : Method) (answers : gmap string string)
    (gameTruth : GameTruth) : gmap string Status :=
  match activeMethod with
  | ann =>
      let v := read_answer answers "cap_ann" in
      let res := <["cap_ann"%string := gradeOne v (Fin (capA gameTruth))]> ∅ in
      let sv := read_answer answers "sv_ann" in
      <["sv_ann"%string := gradeOne sv (Fin (svA gameTruth))]> res
  | cpm =>
      let v := read_answer answers "cap_cpm" in
      let res := <["cap_cpm"%string := gradeOne v (Fin (totalCPM gameTruth))]> ∅ in
      let sv := read_answer answers "sv_cpm" in
      <["sv_cpm"%string := gradeOne sv (Fin (svCPM gameTruth))]> res
  | pppm =>
      let v := read_answer answers "cap_pppm" in
      let res := <["cap_pppm"%string := gradeOne v (Fin (totalPPPM gameTruth))]> ∅ in
      let sv := read_answer answers "sv_pppm" in
      <["sv_pppm"%string := gradeOne sv (Fin (svPPPM gameTruth))]> res
  end.

Record Stats : Set := {
  attempted : Z;  allCorrect : Z;  correct_fields : Z;  incorrect_fields : Z }.

Definition is_correct (s : Status) : bool :=
  match s with correct => true | incorrect => false end.

(** The update that [grade] passes to [setStats]. *)
Definition grade_stats (res : gmap string Status) (s : Stats) : Stats :=
  let keys := map_to_list res in
  let numCorrect := Z.of_nat (length (List.filter (fun kv => is_correct (snd kv)) keys)) in
  let numIncorrect := Z.of_nat (length keys) - numCorrect in
  {| attempted := attempted s + 1;
     allCorrect := allCorrect s + (if numIncorrect =? 0 then 1 else 0);
     correct_fields := correct_fields s + numCorrect;
     incorrect_fields := incorrect_fields s + numIncorrect |}.

(** * Properties *)

(** ** 32-bit helpers *)

Module Int32Facts.
Import Int32.

Lemma toUint32_range x : 0 <= toUint32 x < two32.
Proof. unfold toUint32, two32. apply Z.mod_pos_bound. lia. Qed.

Lemma toInt32_mod x : toInt32 x mod two32 = x mod two32.
Proof.
  unfold toInt32. destruct (x mod two32 <? two31).
  - apply Z.mod_mod. unfold two32. lia.
  - unfold Z.sub. rewrite <- (Z.mul_1_l two32) at 2.
    rewrite <- Z.mul_opp_l, Z.mod_add by (unfold two32; lia).
    apply Z.mod_mod. unfold two32. lia.
Qed.

Lemma lxor_mod_two32 a b :
  Z.lxor a b mod two32 = Z.lxor (a mod two32) (b mod two32).
Proof.
  change two32 with (2 ^ 32).
  rewrite <- !Z.land_ones by lia.
  apply Z.bits_inj'. intros k Hk.
  rewrite !Z.land_spec, !Z.lxor_spec, !Z.land_spec.
  destruct (Z.testbit a k), (Z.testbit b k), (Z.testbit (Z.ones 32) k);
    reflexivity.
Qed.

Lemma mul_mod_toInt32 a b :
  (toInt32 a * toInt32 b) mod two32 = (a * b) mod two32.
Proof.
  rewrite Z.mul_mod by (unfold two32; lia).
  rewrite !toInt32_mod.
  rewrite <- Z.mul_mod by (unfold two32; lia). reflexivity.
Qed.

Lemma lxor_cancel_l a x y : Z.lxor a x = Z.lxor a y -> x = y.
Proof.
  intros H. apply (f_equal (Z.lxor a)) in H.
  rewrite <- !Z.lxor_assoc, Z.lxor_nilpotent, !Z.lxor_0_l in H. exact H.
Qed.

End Int32Facts.

(** ** Seed deriver *)

Lemma splitSeed_unsigned base idx :
  splitSeed base idx
  = Z.lxor (base mod Int32.two32) (((idx + 1) * GOLD) mod Int32.two32).
Proof.
  unfold splitSeed, Int32.toUint32, Int32.xor, Int32.imul.
  rewrite Int32Facts.lxor_mod_two32, !Int32Facts.toInt32_mod.
  rewrite Int32Facts.mul_mod_toInt32. reflexivity.
Qed.

Lemma GOLD_odd : Z.gcd Int32.two32 GOLD = 1.
Proof. vm_compute. reflexivity. Qed.

(** Multiplication by [GOLD] is injective on 32-bit distances. *)
Lemma GOLD_mul_injective i j :
  Z.abs (i - j) < Int32.two32 ->
  ((i + 1) * GOLD) mod Int32.two32 = ((j + 1) * GOLD) mod Int32.two32 ->
  i = j.
Proof.
  intros Hd Heq.
  assert (Hdiv : (Int32.two32 | (i - j) * GOLD)).
  { apply Z.mod_divide; [unfold Int32.two32; lia |].
    replace ((i - j) * GOLD) with ((i + 1) * GOLD - (j + 1) * GOLD) by ring.
    rewrite Zminus_mod, Heq, Z.sub_diag. reflexivity. }
  rewrite Z.mul_comm in Hdiv.
  apply Z.gauss in Hdiv; [| exact GOLD_odd].
  destruct Hdiv as [k Hk]. unfold Int32.two32 in *. lia.
Qed.

(** C8. For a 32-bit base [b], [splitSeed b idx] is [b] XOR
    [((idx + 1) * 0x9E3779B9) mod 2^32], and the seeds of the problem
    indices 0 to 9 are pairwise distinct. *)
Theorem splitSeed_xor_and_distinct (b : Z) (Hb : 0 <= b < 2 ^ 32) :
  (forall idx, splitSeed b idx = Z.lxor b (((idx + 1) * 0x9E3779B9) mod 2 ^ 32))
  /\ (forall i j, 0 <= i <= 9 -> 0 <= j <= 9 -> i <> j ->
              splitSeed b i <> splitSeed b j).
Proof.
  change (2 ^ 32) with Int32.two32 in *.
  assert (Hx : forall idx,
    splitSeed b idx = Z.lxor b (((idx + 1) * GOLD) mod Int32.two32)).
  { intros idx. rewrite splitSeed_unsigned, (Z.mod_small b) by exact Hb.
    reflexivity. }
  split; [exact Hx |].
  intros i j Hi Hj Hne Heq. apply Hne.
  rewrite !Hx in Heq. apply Int32Facts.lxor_cancel_l in Heq.
  apply GOLD_mul_injective; [unfold Int32.two32; lia | exact Heq].
Qed.

Lemma splitSeed_xor_and_distinct_witness :
  (forall idx, splitSeed 42 idx = Z.lxor 42 (((idx + 1) * 0x9E3779B9) mod 2 ^ 32))
  /\ (forall i j, 0 <= i <= 9 -> 0 <= j <= 9 -> i <> j ->
              splitSeed 42 i <> splitSeed 42 j).
Proof. apply (splitSeed_xor_and_distinct 42). lia. Defined.

(** ** Grader: the tolerance test *)

Lemma Qlt_b_iff x y : Qlt_b x y = true <-> (x < y)%Q.
Proof.
  unfold Qlt_b. rewrite negb_true_iff, <- not_true_iff_false, Qle_bool_iff.
  split; [apply Qnot_le_lt | apply Qlt_not_le].
Qed.

Lemma Qlt_b_false_iff x y : Qlt_b x y = false <-> (y <= x)%Q.
Proof.
  unfold Qlt_b. rewrite negb_false_iff. apply Qle_bool_iff.
Qed.

Lemma Qle_bool_false_iff x y : Qle_bool x y = false <-> (y < x)%Q.
Proof.
  rewrite <- not_true_iff_false, Qle_bool_iff.
  split; [apply Qnot_le_lt | apply Qlt_not_le].
Qed.

(** The relative error in the words of the specification: [|u - t| / |t|]
    for a truth other than zero; for a truth of zero, 1 if the absolute
    error is positive and 0 otherwise. *)
Definition relative_error (u t : Q) : Q :=
  if Qeq_bool t 0
  then (if Qlt_b 0 (Qabs (u - t)) then 1 else 0)%Q
  else (Qabs (u - t) / Qabs t)%Q.

Lemma gradeOne_Fin u t :
  gradeOne (Fin u) (Fin t) = correct
  <-> Qle_bool (relative_error u t) 0.01 || Qle_bool (Qabs (u - t)) 500 = true.
Proof.
  unfold gradeOne, relative_error; cbn [js_sub js_abs js_is_zero js_gt].
  destruct (Qeq_bool t 0) eqn:Ht.
  - destruct (Qlt_b 0 (Qabs (u - t))); cbn [js_le];
      destruct (_ || _); split; congruence.
  - cbn [js_div js_abs js_le].
    assert (E : (Qabs (Qabs (u - t) / t) == Qabs (u - t) / Qabs t)%Q).
    { unfold Qdiv. rewrite Qabs_Qmult, Qabs_Qinv.
      rewrite (Qabs_pos (Qabs (u - t))) by apply Qabs_nonneg. reflexivity. }
    rewrite (Qleb_comp _ _ E 0.01%Q 0.01%Q (Qeq_refl _)).
    destruct (_ || _); split; congruence.
Qed.

(** C1. A numeric answer [u] is marked correct against the truth [t]
    exactly when the relative error is at most 1% or the absolute error
    [|u - t|] is at most 500. *)
Theorem gradeOne_correct_iff (u t : Q) :
  gradeOne (Fin u) (Fin t) = correct
  <-> (relative_error u t <= 0.01 \/ Qabs (u - t) <= 500)%Q.
Proof.
  rewrite gradeOne_Fin, orb_true_iff, !Qle_bool_iff. reflexivity.
Qed.

Lemma gradeOne_against_zero u :
  gradeOne (Fin u) (Fin 0) = correct <-> (Qabs u <= 500)%Q.
Proof.
  rewrite gradeOne_Fin, orb_true_iff, !Qle_bool_iff.
  unfold relative_error. change (Qeq_bool 0 0) with true.
  assert (E : (Qabs (u - 0) == Qabs u)%Q).
  { apply Qabs_wd. ring. }
  destruct (Qlt_b 0 (Qabs (u - 0))) eqn:Hpos.
  - rewrite E.
    split; [intros [H | H]; [vm_compute in H; congruence | exact H] | auto].
  - apply Qlt_b_false_iff in Hpos. rewrite E in *.
    split; [intros _; lra | auto].
Qed.

(** The boundary cases of the specification: 0.999% off is within the
    relative tolerance although 999 is beyond the absolute one; 2% and
    2000 off is beyond both. *)
Example gradeOne_100999 : gradeOne (Fin 100999) (Fin 100000) = correct.
Proof. reflexivity. Qed.

Example gradeOne_102000 : gradeOne (Fin 102000) (Fin 100000) = incorrect.
Proof. reflexivity. Qed.

(** C5, as the specification has it, fails: the absolute tolerance alone
    accepts an answer of 100 against a truth of 0. *)
Lemma gradeOne_zero_truth_100_counterexample :
  ~ (gradeOne (Fin 0) (Fin 0) = correct
     /\ gradeOne (Fin 100) (Fin 0) = incorrect).
Proof. vm_compute. intros [_ H]. discriminate H. Qed.

(** C5 (amended). Against a truth of exactly 0, the answer 0 is marked
    correct and so is the answer 100; an answer is marked incorrect
    exactly when its absolute value exceeds 500. *)
Theorem gradeOne_zero_truth_cases :
  gradeOne (Fin 0) (Fin 0) = correct
  /\ gradeOne (Fin 100) (Fin 0) = correct
  /\ (forall u : Q, gradeOne (Fin u) (Fin 0) = incorrect <-> (500 < Qabs u)%Q).
Proof.
  split; [reflexivity | split; [reflexivity |]].
  intros u. pose proof (gradeOne_against_zero u) as H.
  destruct (gradeOne (Fin u) (Fin 0)); split; intros H'.
  - discriminate H'.
  - exfalso. apply (Qlt_not_le _ _ H'). apply H. reflexivity.
  - apply Qnot_le_lt. intros Hle. apply H in Hle. discriminate Hle.
  - reflexivity.
Qed.

(** ** Finance engine: powers and signs *)

Section RationalFacts.
Local Open Scope Q_scope.

Lemma Qdiv_pos a b : 0 < a -> 0 < b -> 0 < a / b.
Proof.
  intros Ha Hb. apply Qlt_shift_div_l; [exact Hb | lra].
Qed.

Lemma Qpower_lt_1 q n : 0 < q -> q < 1 -> (0 < n)%Z -> q ^ n < 1.
Proof.
  intros Hq0 Hq1 Hn.
  assert (Ha : 1 < / q).
  { apply Qlt_shift_inv_l; [exact Hq0 | lra]. }
  pose proof (Qpower_1_lt (/ q) n Ha Hn) as Hp.
  rewrite Qinv_power in Hp.
  pose proof (Qpower_0_lt q n Hq0) as Hpos.
  apply Qmult_lt_r with (z := / q ^ n); [lra |].
  rewrite Qmult_inv_r by lra. lra.
Qed.

Lemma Qpower_neg_lt_1 q n : 1 < q -> (0 < n)%Z -> q ^ (- n) < 1.
Proof.
  intros Hq Hn. rewrite Qpower_opp.
  pose proof (Qpower_1_lt q n Hq Hn) as Hp.
  apply Qlt_shift_inv_r; lra.
Qed.

(** The accumulation factor [((1 + r)^N - 1) / r] of a level deposit
    is positive for every rate above -100% other than zero. *)
Lemma accumulation_factor_pos r N :
  -1 < r -> ~ r == 0 -> (1 <= N)%Z -> 0 < ((1 + r) ^ N - 1) / r.
Proof.
  intros Hr Hr0 HN.
  destruct (Qlt_le_dec 0 r) as [Hpos | Hneg].
  - apply Qdiv_pos; [| exact Hpos].
    assert (1 < (1 + r) ^ N) by (apply Qpower_1_lt; [lra | lia]). lra.
  - assert (Hlt : r < 0).
    { apply Qle_lteq in Hneg. destruct Hneg as [H | H]; [exact H | contradiction]. }
    assert (Hp : (1 + r) ^ N < 1) by (apply Qpower_lt_1; [lra | lra | lia]).
    assert (E : ((1 + r) ^ N - 1) / r == (1 - (1 + r) ^ N) / (- r)).
    { field. exact Hr0. }
    rewrite E. apply Qdiv_pos; lra.
Qed.

Lemma Qabs_small_or_nonzero x eps :
  0 < eps -> Qlt_b (Qabs x) eps = false -> ~ x == 0.
Proof.
  intros He H E. apply Qlt_b_false_iff in H.
  rewrite E in H. change (Qabs 0) with 0 in H. lra.
Qed.

End RationalFacts.

(** ** Finance engine: the annuity *)

(** The annuity-due closed form as the specification writes it. *)
Definition annuity_due_closed_form (pmt1 rReal : Q) (RLE : Z) : Q :=
  (pmt1 * ((1 - (1 + rReal) ^ (- RLE)) / rReal) * (1 + rReal))%Q.

(** C3. For a positive number of years [RLE], [capitalAnnuity] is
    [pmt1 * RLE] when [|rReal| < 1e-12], in particular at [rReal = 0],
    and the annuity-due closed form otherwise. *)
Theorem capitalAnnuity_cases (pmt1 rReal : Q) (RLE : Z) (HRLE : 0 < RLE) :
  ((Qabs rReal < 1e-12)%Q ->
     capitalAnnuity pmt1 rReal RLE = (pmt1 * inject_Z RLE)%Q)
  /\ capitalAnnuity pmt1 0 RLE = (pmt1 * inject_Z RLE)%Q
  /\ ((1e-12 <= Qabs rReal)%Q ->
        capitalAnnuity pmt1 rReal RLE = annuity_due_closed_form pmt1 rReal RLE).
Proof.
  unfold capitalAnnuity, annuity_due_closed_form.
  split; [| split].
  - intros H. apply Qlt_b_iff in H. rewrite H. reflexivity.
  - reflexivity.
  - intros H. apply Qlt_b_false_iff in H. rewrite H. reflexivity.
Qed.

Lemma capitalAnnuity_cases_witness :
  capitalAnnuity 1000 (1 # 10000000000000) 20 = (1000 * inject_Z 20)%Q
  /\ capitalAnnuity 1000 0 20 = (1000 * inject_Z 20)%Q
  /\ capitalAnnuity 1000 0.05 20 = annuity_due_closed_form 1000 0.05 20.
Proof.
  split; [| split].
  - apply (capitalAnnuity_cases 1000 (1 # 10000000000000) 20); reflexivity.
  - apply (capitalAnnuity_cases 1000 0 20). reflexivity.
  - apply (capitalAnnuity_cases 1000 0.05 20); [reflexivity | discriminate].
Defined.

(** What the closed form stands for: the value at retirement of [n]
    payments of [pmt1], the first one due at once and each later one
    discounted at [rReal] for the years it lies ahead. *)
Fixpoint annuity_due_sum (pmt1 rReal : Q) (n : nat) : Q :=
  match n with
  | O => 0%Q
  | S k => (annuity_due_sum pmt1 rReal k + pmt1 / (1 + rReal) ^ Z.of_nat k)%Q
  end.

Lemma annuity_due_closed_form_sum pmt1 rReal n :
  ~ (rReal == 0)%Q -> ~ (1 + rReal == 0)%Q ->
  (annuity_due_closed_form pmt1 rReal (Z.of_nat n)
   == annuity_due_sum pmt1 rReal n)%Q.
Proof.
  intros Hr Ha. unfold annuity_due_closed_form.
  induction n as [| n IH].
  - change (- Z.of_nat 0) with 0. rewrite Qpower_0_r.
    cbn [annuity_due_sum]. field. exact Hr.
  - cbn [annuity_due_sum]. rewrite <- IH.
    rewrite Nat2Z.inj_succ, <- Z.add_1_r.
    rewrite !Qpower_opp, Qpower_plus by exact Ha.
    change ((1 + rReal) ^ 1)%Q with (1 + rReal)%Q.
    pose proof (Qpower_not_0 (1 + rReal) (Z.of_nat n) Ha) as Hp.
    field. repeat split; assumption.
Qed.

Lemma capitalAnnuity_pos pmt1 rReal RLE :
  (0 < pmt1)%Q -> (0 < rReal)%Q -> 1 <= RLE ->
  (0 < capitalAnnuity pmt1 rReal RLE)%Q.
Proof.
  intros Hp Hr Hn. unfold capitalAnnuity.
  destruct (Qlt_b (Qabs rReal) 1e-12).
  - apply Qmult_lt_0_compat; [exact Hp |].
    change 0%Q with (inject_Z 0). rewrite <- Zlt_Qlt. lia.
  - assert (Hlt : ((1 + rReal) ^ (- RLE) < 1)%Q)
      by (apply Qpower_neg_lt_1; [lra | lia]).
    apply Qmult_lt_0_compat; [| lra].
    apply Qmult_lt_0_compat; [exact Hp |].
    apply Qdiv_pos; lra.
Qed.

(** ** Finance engine: required savings *)

(** The last step of [annualSavings]: a deposit at the beginning of the
    period is the end-of-period deposit discounted once. *)
Definition timing_adjust (timing : Timing) (r pmtEnd : Q) : Q :=
  match timing with
  | BEGIN => (pmtEnd / (1 + r))%Q
  | END => pmtEnd
  end.

Lemma annualSavings_funded PVcur K r N timing :
  (K <= PVcur * (1 + r) ^ N)%Q -> annualSavings PVcur K r N timing = 0%Q.
Proof.
  intros H. unfold annualSavings.
  assert (Hb : Qle_bool (K - PVcur * (1 + r) ^ N) 0 = true)
    by (apply Qle_bool_iff; lra).
  rewrite Hb. reflexivity.
Qed.

Lemma annualSavings_short PVcur K r N timing :
  (PVcur * (1 + r) ^ N < K)%Q ->
  annualSavings PVcur K r N timing
  = timing_adjust timing r
      (if Qlt_b (Qabs r) 1e-12
       then ((K - PVcur * (1 + r) ^ N) / inject_Z N)%Q
       else ((K - PVcur * (1 + r) ^ N) / (((1 + r) ^ N - 1) / r))%Q).
Proof.
  intros H. unfold annualSavings.
  assert (Hb : Qle_bool (K - PVcur * (1 + r) ^ N) 0 = false)
    by (apply Qle_bool_false_iff; lra).
  rewrite Hb. destruct timing; reflexivity.
Qed.

Lemma annualSavings_nonneg PVcur K r N timing :
  (-1 < r)%Q -> 1 <= N -> (0 <= annualSavings PVcur K r N timing)%Q.
Proof.
  intros Hr HN.
  destruct (Qlt_le_dec (PVcur * (1 + r) ^ N) K) as [Hshort | Hfunded].
  - rewrite (annualSavings_short _ _ _ _ _ Hshort).
    assert (Hpmt : (0 <
      (if Qlt_b (Qabs r) 1e-12
       then (K - PVcur * (1 + r) ^ N) / inject_Z N
       else (K - PVcur * (1 + r) ^ N) / (((1 + r) ^ N - 1) / r)))%Q).
    { destruct (Qlt_b (Qabs r) 1e-12) eqn:Hsmall.
      - apply Qdiv_pos; [lra |].
        change 0%Q with (inject_Z 0). rewrite <- Zlt_Qlt. lia.
      - apply Qdiv_pos; [lra |].
        apply accumulation_factor_pos; [exact Hr | | exact HN].
        apply (Qabs_small_or_nonzero r 1e-12); [reflexivity | exact Hsmall]. }
    destruct timing; cbn [timing_adjust].
    + apply Qlt_le_weak, Hpmt.
    + apply Qlt_le_weak, Qdiv_pos; [exact Hpmt | lra].
  - rewrite (annualSavings_funded _ _ _ _ _ Hfunded). apply Qle_refl.
Qed.

(** C2, as the specification has it, fails: nothing in [annualSavings]
    keeps the result non-negative once the rate is below -100%. *)
Lemma annualSavings_negative_counterexample :
  (annualSavings 0 100 (-3) 2 END < 0)%Q.
Proof. vm_compute. reflexivity. Qed.

(** C2 (amended). [annualSavings] returns exactly 0 whenever
    [PVcur * (1 + r)^N >= K]; otherwise it returns [need / N] when
    [|r| < 1e-12] and [need / (((1 + r)^N - 1) / r)] when [|r| >= 1e-12],
    with [need = K - PVcur * (1 + r)^N], divided by [1 + r] for deposits
    at the beginning of the period.  For a rate above -100% and at least
    one year the result is never negative. *)
Theorem annualSavings_cases (PVcur K r : Q) (N : Z) (timing : Timing) :
  let need := (K - PVcur * (1 + r) ^ N)%Q in
  ((K <= PVcur * (1 + r) ^ N)%Q -> annualSavings PVcur K r N timing = 0%Q)
  /\ ((PVcur * (1 + r) ^ N < K)%Q -> (Qabs r < 1e-12)%Q ->
        annualSavings PVcur K r N timing
        = timing_adjust timing r (need / inject_Z N)%Q)
  /\ ((PVcur * (1 + r) ^ N < K)%Q -> (1e-12 <= Qabs r)%Q ->
        annualSavings PVcur K r N timing
        = timing_adjust timing r (need / (((1 + r) ^ N - 1) / r))%Q)
  /\ ((-1 < r)%Q -> 1 <= N -> (0 <= annualSavings PVcur K r N timing)%Q).
Proof.
  intros need. subst need.
  split; [apply annualSavings_funded |].
  split; [| split]; [| | apply annualSavings_nonneg].
  - intros Hs Hr. rewrite (annualSavings_short _ _ _ _ _ Hs).
    apply Qlt_b_iff in Hr. rewrite Hr. reflexivity.
  - intros Hs Hr. rewrite (annualSavings_short _ _ _ _ _ Hs).
    apply Qlt_b_false_iff in Hr. rewrite Hr. reflexivity.
Qed.

Lemma annualSavings_cases_witness :
  annualSavings 500000 1000000 0.07 20 END = 0%Q
  /\ annualSavings 0 1000 0 10 BEGIN
     = timing_adjust BEGIN 0 ((1000 - 0 * (1 + 0) ^ 10) / inject_Z 10)%Q
  /\ annualSavings 0 1000 0.07 2 BEGIN
     = timing_adjust BEGIN 0.07
         ((1000 - 0 * (1 + 0.07) ^ 2) / (((1 + 0.07) ^ 2 - 1) / 0.07))%Q
  /\ (0 <= annualSavings 0 1000 0.07 2 BEGIN)%Q.
Proof.
  split; [| split; [| split]].
  - apply (annualSavings_cases 500000 1000000 0.07 20 END). vm_compute. discriminate.
  - apply (annualSavings_cases 0 1000 0 10 BEGIN); reflexivity.
  - apply (annualSavings_cases 0 1000 0.07 2 BEGIN); [reflexivity | discriminate].
  - apply (annualSavings_cases 0 1000 0.07 2 BEGIN); [reflexivity | lia].
Defined.

(** ** Truth: which rate goes where *)

(** [rDuring] of [computeGameTruth]. *)
Definition rate_in_retirement (scn : GameScenario) : Q :=
  match rRetire scn with Some x => x | None => r scn end.

(** The scenario with another pre-retirement rate. *)
Definition with_r (scn : GameScenario) (r' : Q) : GameScenario :=
  {| name := name scn; bio := bio scn; income := income scn; wrr := wrr scn;
     ss := ss scn; rwle := rwle scn; rle := rle scn; g := g scn; r := r';
     pvcur := pvcur scn; rRetire := rRetire scn; bequest := bequest scn |}.

(** C10. With [rRetire] present the retirement phase runs on it:
    [r_real = (1 + rRetire) / (1 + g) - 1] and
    [keepCPM = capA / (1 + rRetire)^rle], and neither these nor [capA]
    change with [r]; with [rRetire] absent, [r] takes its place.  The
    three savings fields always use [r] over [rwle] years. *)
Theorem computeGameTruth_rates (scn : GameScenario) (timing : Timing) :
  let t := computeGameTruth scn timing in
  (forall x, rRetire scn = Some x ->
     r_real t = ((1 + x) / (1 + g scn) - 1)%Q
     /\ keepCPM t = (capA t / (1 + x) ^ rle scn)%Q
     /\ forall r', let t' := computeGameTruth (with_r scn r') timing in
          r_real t' = r_real t /\ capA t' = capA t /\ keepCPM t' = keepCPM t)
  /\ (rRetire scn = None ->
        r_real t = ((1 + r scn) / (1 + g scn) - 1)%Q
        /\ keepCPM t = (capA t / (1 + r scn) ^ rle scn)%Q)
  /\ svA t = annualSavings (pvcur scn) (capA t) (r scn) (rwle scn) timing
  /\ svCPM t = annualSavings (pvcur scn) (totalCPM t) (r scn) (rwle scn) timing
  /\ svPPPM t = annualSavings (pvcur scn) (totalPPPM t) (r scn) (rwle scn) timing.
Proof.
  destruct scn as [nm bi inc w s yw yr gg rr pv rret beq].
  cbn -[capitalAnnuity annualSavings Qpower].
  split; [| split; [| repeat split]].
  - intros x ->. repeat split.
  - intros ->. split; reflexivity.
Qed.

Lemma computeGameTruth_rates_witness :
  let scn := {| name := ""; bio := ""; income := 100000; wrr := 0.8;
                ss := 20000; rwle := 20; rle := 25; g := 0.03; r := 0.08;
                pvcur := 0; rRetire := Some 0.05%Q; bequest := None |} in
  let t := computeGameTruth scn END in
  r_real t = ((1 + 0.05) / (1 + 0.03) - 1)%Q
  /\ keepCPM t = (capA t / (1 + 0.05) ^ 25)%Q.
Proof.
  intros scn t.
  destruct (computeGameTruth_rates scn END) as [H _].
  destruct (H 0.05%Q eq_refl) as [H1 [H2 _]].
  split; [exact H1 | exact H2].
Defined.

(** ** Truth: the preserved lump is worth something *)



(** ** The engine in binary64 *)

(** The same functions over the doubles that the source computes with,
    to evaluate them where rounding decides the answer.  [Math.pow] is
    implementation-approximated by the language standard; it is taken
    here, for an integer exponent, as the repeated product (and its
    reciprocal for a negative exponent), which is the exact power
    whenever that power is a double, as it is for the bases 1 and 2
    used below. *)
Module F64.

Local Open Scope float_scope.
Local Set Warnings "-inexact-float".

Definition of_Z (z : Z) : float :=
  match z with
  | Z0 => 0
  | Zpos _ => PrimFloat.of_uint63 (Uint63.of_Z z)
  | Zneg p => - PrimFloat.of_uint63 (Uint63.of_Z (Zpos p))
  end.

Definition Math_pow (x : float) (n : Z) : float :=
  match n with
  | Z0 => 1
  | Zpos p => Pos.iter (fun acc => acc * x) 1 p
  | Zneg p => 1 / Pos.iter (fun acc => acc * x) 1 p
  end.

(** [Math.max(0, x)] *)
Definition Math_max0 (x : float) : float := if x <=? 0 then 0 else x.

Definition computeRealRate (r g : float) : float := (1 + r) / (1 + g) - 1.

(** [if (!(x > g)) x = g + 0.0005], the guard of the rate fields. *)
Definition coerce_above (x g : float) : float :=
  if negb (g <? x) then g + 0.0005 else x.

Definition capitalAnnuity (pmt1 rReal : float) (RLE : Z) : float :=
  if abs rReal <? 1e-12 then pmt1 * of_Z RLE
  else
    let factor := (1 - Math_pow (1 + rReal) (- RLE)) / rReal in
    pmt1 * factor * (1 + rReal).

Definition annualSavings (PVcur K r : float) (N : Z) (timing : Timing) : float :=
  let FVexist := PVcur * Math_pow (1 + r) N in
  let need := K - FVexist in
  if need <=? 0 then 0
  else
    let pmtEnd :=
      if abs r <? 1e-12 then need / of_Z N
      else need / ((Math_pow (1 + r) N - 1) / r) in
    match timing with
    | BEGIN => pmtEnd / (1 + r)
    | END => pmtEnd
    end.

Record GameScenario : Set := {
  name : string;  bio : string;
  income : float;  wrr : float;  ss : float;
  rwle : Z;  rle : Z;
  g : float;  r : float;  pvcur : float;
  rRetire : option float;
  bequest : option float }.

Record GameTruth : Set := {
  need_today : float;  PMT1 : float;  r_real : float;  capA : float;
  keepCPM : float;  totalCPM : float;  keepPPPM : float;  totalPPPM : float;
  svA : float;  svCPM : float;  svPPPM : float }.

Definition computeGameTruth (scn : GameScenario) (timing : Timing) : GameTruth :=
  let need_today := Math_max0 (wrr scn * income scn - ss scn) in
  let PMT1 := need_today * Math_pow (1 + g scn) (rwle scn) in
  let rDuring := match rRetire scn with Some x => x | None => r scn end in
  let r_real := computeRealRate rDuring (g scn) in
  let bequestPV :=
    match bequest scn with
    | Some b =>
        if (b =? 0) || is_nan b then 0
        else b / Math_pow (1 + r_real) (rle scn)
    | None => 0
    end in
  let capA := capitalAnnuity PMT1 r_real (rle scn) + bequestPV in
  let keepCPM := capA / Math_pow (1 + rDuring) (rle scn) in
  let totalCPM := capA + keepCPM in
  let keepPPPM := capA / Math_pow (1 + r_real) (rle scn) in
  let totalPPPM := capA + keepPPPM in
  let svA := annualSavings (pvcur scn) capA (r scn) (rwle scn) timing in
  let svCPM := annualSavings (pvcur scn) totalCPM (r scn) (rwle scn) timing in
  let svPPPM := annualSavings (pvcur scn) totalPPPM (r scn) (rwle scn) timing in
  {| need_today := need_today; PMT1 := PMT1; r_real := r_real; capA := capA;
     keepCPM := keepCPM; totalCPM := totalCPM;
     keepPPPM := keepPPPM; totalPPPM := totalPPPM;
     svA := svA; svCPM := svCPM; svPPPM := svPPPM |}.


End F64.


(** The same scenario with 40 years instead keeps both lumps. *)
Example totals_kept_at_forty_years :
  let scn := {| F64.name := ""; F64.bio := ""; F64.income := 100%float;
                F64.wrr := 1%float; F64.ss := 50%float; F64.rwle := 1;
                F64.rle := 40; F64.g := 0%float; F64.r := 1%float;
                F64.pvcur := 0%float;
                F64.rRetire := None; F64.bequest := None |} in
  let t := F64.computeGameTruth scn END in
  (F64.capA t <? F64.totalCPM t)%float = true
  /\ (F64.capA t <? F64.totalPPPM t)%float = true.
Proof. split; vm_compute; reflexivity. Qed.



(** ** Generator: reasoning about draws *)

(** [post m P]: whatever the state of the generator, the value that [m]
    returns satisfies [P]. *)
Definition post {A : Type} (m : Rng A) (P : A -> Prop) : Prop :=
  forall t, P (fst (m t)).

Lemma post_ret {A : Type} (a : A) (P : A -> Prop) : P a -> post (ret a) P.
Proof. intros H t. exact H. Qed.

Lemma post_bind {A B : Type} (m : Rng A) (k : A -> Rng B)
    (P : A -> Prop) (Q : B -> Prop) :
  post m P -> (forall a, P a -> post (k a) Q) -> post (bind m k) Q.
Proof.
  intros Hm Hk t. unfold bind.
  specialize (Hm t). destruct (m t) as [a t']. apply Hk. exact Hm.
Qed.

Lemma post_any {A : Type} (m : Rng A) : post m (fun _ => True).
Proof. intros t. exact I. Qed.

Lemma post_rng : post rng (fun u => 0 <= u < 1)%Q.
Proof.
  intros t. unfold rng, bind, ret, mulberry32_bits. cbn [fst].
  match goal with |- context [Int32.toUint32 ?x] =>
    pose proof (Int32Facts.toUint32_range x) as Hk;
    generalize dependent (Int32.toUint32 x) end.
  intros k [Hlo Hhi].
  assert (Hden : (0 < inject_Z Int32.two32)%Q) by reflexivity.
  split.
  - apply Qle_shift_div_l; [exact Hden |].
    rewrite Qmult_0_l. change 0%Q with (inject_Z 0). rewrite <- Zle_Qle. exact Hlo.
  - apply Qlt_shift_div_r; [exact Hden |].
    rewrite Qmult_1_l, <- Zlt_Qlt. exact Hhi.
Qed.

Lemma post_randInt lo hi :
  lo <= hi -> post (randInt lo hi) (fun x => lo <= x <= hi).
Proof.
  intros Hle. unfold randInt.
  apply (post_bind _ _ _ _ post_rng). intros u [Hu0 Hu1].
  apply post_ret.
  set (n := hi - lo + 1).
  assert (Hn : (0 < inject_Z n)%Q).
  { change 0%Q with (inject_Z 0). rewrite <- Zlt_Qlt. unfold n. lia. }
  assert (H0 : 0 <= Qfloor (u * inject_Z n)).
  { rewrite <- (Qfloor_Z 0). apply Qfloor_resp_le.
    change (inject_Z 0) with 0%Q. apply Qmult_le_0_compat; lra. }
  assert (H1 : Qfloor (u * inject_Z n) < n).
  { rewrite Zlt_Qlt.
    apply Qle_lt_trans with (y := (u * inject_Z n)%Q); [apply Qfloor_le |].
    rewrite <- (Qmult_1_l (inject_Z n)) at 2.
    apply Qmult_lt_compat_r; [exact Hn | exact Hu1]. }
  unfold n in *. lia.
Qed.

(** What [generateScenarioFromSeed] returns is what the draws return
    from the freshly seeded generator. *)
Lemma generateScenarioFromSeed_post (P : GameScenario -> Prop) baseSeed d :
  post (generateScenario_draws d) P -> P (generateScenarioFromSeed baseSeed d).
Proof. intros H. apply H. Qed.

Lemma pick_In (choices : list Q) i :
  0 <= i <= Z.of_nat (length choices) - 1 -> In (pick choices i) choices.
Proof.
  intros Hi. unfold pick. apply nth_In. lia.
Qed.

Lemma bump_above g r bump :
  (0 < bump)%Q -> (g < (if Qle_bool r g then (g + bump)%Q else r))%Q.
Proof.
  intros Hb. destruct (Qle_bool r g) eqn:E.
  - lra.
  - apply Qle_bool_false_iff in E. exact E.
Qed.

Lemma post_ret_eq {A : Type} (a : A) : post (ret a) (eq a).
Proof. intros t. reflexivity. Qed.

(** One draw whose value does not matter for the property at hand. *)
Ltac draw_any :=
  cbv zeta; eapply post_bind; [apply post_any | intros ? _].

(** A [ret] on the left of a bind. *)
Ltac draw_ret :=
  cbv zeta; eapply post_bind; [apply post_ret_eq | intros ? <-].

(** ** Generator: the rate invariant *)

Lemma hard_rRetire_post g r : post (hard_rRetire g r) (fun x => g < x)%Q.
Proof.
  unfold hard_rRetire. draw_any. apply post_ret.
  apply bump_above. reflexivity.
Qed.

Definition rates_above_inflation (s : GameScenario) : Prop :=
  (g s < r s)%Q /\ forall x, rRetire s = Some x -> (g s < x)%Q.

Lemma easy_override_rates income ss rwle rle :
  post (easy_override income ss rwle rle)
       (fun '(_, _, _, _, _, g, r, _) => (g < r)%Q).
Proof.
  unfold easy_override. do 3 draw_any. apply post_ret.
  apply bump_above. reflexivity.
Qed.

Lemma generateScenario_draws_rates d :
  post (generateScenario_draws d) rates_above_inflation.
Proof.
  unfold generateScenario_draws.
  do 7 draw_any.
  match goal with |- context [Qle_bool ?r ?g] =>
    pose proof (bump_above g r 0.0005 eq_refl) as Hr;
    generalize dependent (if Qle_bool r g then (g + 0.0005)%Q else r) end.
  intros r0 Hr. draw_any.
  destruct d.
  - (* easy *)
    cbv zeta. eapply post_bind; [apply easy_override_rates |].
    intros [[[[[[[income wrr] ss] rwle] rle] g] r] pvcur] Hgr.
    do 2 draw_ret. do 3 draw_any. apply post_ret.
    split; [exact Hgr | intros x Hx; discriminate Hx].
  - (* normal *)
    do 3 draw_ret. do 3 draw_any. apply post_ret.
    split; [exact Hr | intros x Hx; discriminate Hx].
  - (* hard *)
    draw_ret.
    cbv zeta. eapply post_bind.
    { eapply post_bind; [apply hard_rRetire_post |].
      intros x Hx. cbv beta in Hx.
      match type of Hx with (?gg < _)%Q =>
        apply post_ret with (P := fun o => forall y, o = Some y -> (gg < y)%Q)
      end.
      intros y Hy. injection Hy as <-. exact Hx. }
    intros o Ho. do 4 draw_any. apply post_ret.
    split; [exact Hr | exact Ho].
Qed.

(** C4. For every seed and every difficulty tier the generated scenario
    has [r > g], and [rRetire > g] whenever [rRetire] is present. *)
Theorem generated_rates_above_inflation (seed : Z) (d : Difficulty) :
  let s := generateScenarioFromSeed seed d in
  (g s < r s)%Q /\ forall x, rRetire s = Some x -> (g s < x)%Q.
Proof.
  apply (generateScenarioFromSeed_post rates_above_inflation).
  apply generateScenario_draws_rates.
Qed.

(** ** Generator: the easy tier *)

(** Every clean return is above every clean inflation rate, so the easy
    tier never bumps [r]. *)
Lemma clean_rates_ordered g r :
  In g gChoices -> In r rChoices -> Qle_bool r g = false.
Proof.
  unfold gChoices, rChoices. cbn [In].
  intros Hg Hr.
  repeat match goal with
         | H : _ \/ _ |- _ => destruct H as [H | H]
         | H : False |- _ => destruct H
         end; subst; reflexivity.
Qed.

Definition easy_clean (s : GameScenario) : Prop :=
  pvcur s = 0%Q
  /\ In (wrr s) wrrChoices /\ In (g s) gChoices /\ In (r s) rChoices
  /\ (exists k, income s = inject_Z (k * 1000))
  /\ (exists k, ss s = inject_Z (k * 1000))
  /\ (exists k, rwle s = k * 5)
  /\ (exists k, rle s = k * 5).

Lemma easy_override_clean income ss rwle rle :
  post (easy_override income ss rwle rle)
       (fun '(income', wrr, ss', rwle', rle', g, r, pvcur) =>
          pvcur = 0
          /\ In wrr wrrChoices /\ In g gChoices /\ In r rChoices
          /\ (exists k, income' = k * 1000) /\ (exists k, ss' = k * 1000)
          /\ (exists k, rwle' = k * 5) /\ (exists k, rle' = k * 5)).
Proof.
  unfold easy_override.
  cbv zeta. eapply post_bind; [apply post_randInt; cbn; lia | intros iw Hiw].
  cbv zeta. eapply post_bind; [apply post_randInt; cbn; lia | intros ig Hig].
  cbv zeta. eapply post_bind; [apply post_randInt; cbn; lia | intros ir Hir].
  apply post_ret. cbv beta in Hiw, Hig, Hir.
  pose proof (pick_In wrrChoices iw Hiw) as Hw.
  pose proof (pick_In gChoices ig Hig) as Hg.
  pose proof (pick_In rChoices ir Hir) as Hr.
  rewrite (clean_rates_ordered _ _ Hg Hr).
  repeat split; try assumption; eexists; reflexivity.
Qed.

Lemma generateScenario_draws_easy :
  post (generateScenario_draws easy) easy_clean.
Proof.
  unfold generateScenario_draws.
  do 8 draw_any.
  cbv zeta. eapply post_bind; [apply easy_override_clean |].
  intros [[[[[[[income wrr] ss] rwle] rle] g] r] pvcur].
  intros (Hpv & Hw & Hg & Hr & [ki Hi] & [ks Hs] & Hrw & Hrl).
  do 2 draw_ret. do 3 draw_any. apply post_ret.
  unfold easy_clean; cbn. subst pvcur income ss.
  repeat split; try assumption; eexists; reflexivity.
Qed.

(** C7. For every seed the easy tier yields [pvcur = 0], [wrr], [g] and
    [r] from their clean option sets, [income] and [ss] multiples of 1000
    and [rwle] and [rle] multiples of 5. *)
Theorem easy_scenario_is_clean (seed : Z) :
  let s := generateScenarioFromSeed seed easy in
  pvcur s = 0%Q
  /\ In (wrr s) [0.70; 0.75; 0.80; 0.85]%Q
  /\ In (g s) [0.020; 0.025; 0.030; 0.035]%Q
  /\ In (r s) [0.060; 0.070; 0.080; 0.090]%Q
  /\ (exists k, income s = inject_Z (k * 1000))
  /\ (exists k, ss s = inject_Z (k * 1000))
  /\ (exists k, rwle s = k * 5)
  /\ (exists k, rle s = k * 5).
Proof.
  apply (generateScenarioFromSeed_post easy_clean).
  apply generateScenario_draws_easy.
Qed.

(** The first easy problem of base seed 42. *)
Example easy_problem_0_of_seed_42 :
  generateScenarioFromSeed (splitSeed 42 0) easy
  = {| name := "Drew Garcia"; bio := "Teacher traveler.";
       income := 69000; wrr := 0.80; ss := 24000; rwle := 20; rle := 25;
       g := 0.030; r := 0.080; pvcur := 0;
       rRetire := None; bequest := None |}.
Proof. vm_compute. reflexivity. Qed.

(** ** Grader: reading the submitted string *)

Lemma strip_non_numeric_chars s :
  Forall (fun c => numeric_char c = true) (list_ascii_of_string (strip_non_numeric s)).
Proof.
  induction s as [| c s IH]; cbn; [constructor |].
  destruct (numeric_char c) eqn:E; [| exact IH].
  cbn. constructor; assumption.
Qed.

Lemma strip_non_numeric_filter s :
  list_ascii_of_string (strip_non_numeric s)
  = List.filter numeric_char (list_ascii_of_string s).
Proof.
  induction s as [| c s IH]; cbn; [reflexivity |].
  destruct (numeric_char c); cbn; rewrite IH; reflexivity.
Qed.

(** A missing or empty answer reads as the number 0. *)
Lemma read_answer_missing answers key :
  answers !! key = None \/ answers !! key = Some EmptyString ->
  read_answer answers key = Fin 0.
Proof.
  unfold read_answer, answer_or_zero. intros [-> | ->]; reflexivity.
Qed.

(** An answer without a numeric prefix reads as NaN, and NaN is marked
    correct only against a truth of zero. *)
Lemma gradeOne_NaN t : gradeOne NaN (Fin t) = correct <-> (t == 0)%Q.
Proof.
  unfold gradeOne; cbn. destruct (Qeq_bool t 0) eqn:E; cbn.
  - apply Qeq_bool_iff in E. split; [intros _; exact E | reflexivity].
  - split; [discriminate |].
    intros H. apply Qeq_bool_iff in H. congruence.
Qed.

Lemma gradeOne_zero_answer t :
  gradeOne (Fin 0) (Fin t) = correct <-> (Qabs t <= 500)%Q.
Proof.
  rewrite gradeOne_Fin, orb_true_iff, !Qle_bool_iff.
  assert (E : (Qabs (0 - t) == Qabs t)%Q).
  { rewrite <- (Qabs_opp t). apply Qabs_wd. ring. }
  rewrite E. split; [| auto].
  intros [H | H]; [| exact H].
  unfold relative_error in H. destruct (Qeq_bool t 0) eqn:Ht.
  - apply Qeq_bool_iff in Ht. rewrite Ht. vm_compute. discriminate.
  - exfalso. rewrite E in H.
    assert (Hne : ~ (t == 0)%Q) by (intros C; apply Qeq_bool_iff in C; congruence).
    assert (Hpos : (0 < Qabs t)%Q).
    { pose proof (Qabs_nonneg t) as Hn. apply Qle_lteq in Hn.
      destruct Hn as [Hn | Hn]; [exact Hn |].
      exfalso. apply Hne. revert Hn. apply Qabs_case; intros; lra. }
    assert (Hone : (Qabs t / Qabs t == 1)%Q) by (field; lra).
    rewrite Hone in H. lra.
Qed.

(** A scenario as the editable fields of the game allow it: a need of
    100 a year for a single year of retirement, so that the annuity
    capital is 100. *)
Definition small_need_scenario : GameScenario :=
  {| name := "Alex Kim"; bio := "Teacher traveler.";
     income := 1000; wrr := 1; ss := 900; rwle := 1; rle := 1;
     g := 0; r := 0.05; pvcur := 0; rRetire := None; bequest := None |}.

Lemma small_need_scenario_capA :
  (capA (computeGameTruth small_need_scenario END) == 100)%Q.
Proof. vm_compute. reflexivity. Qed.

(** C6.  The specification has an unparsable answer graded as the number
    0; [grade] passes the NaN of [parseFloat] on instead.  Against a
    capital of 100 the answer ["abc"] is marked incorrect, where the
    answer ["0"], the empty answer and the number 0 are marked correct,
    and where [parseCurrencyToNumber] reads ["abc"] as 0. *)
Theorem grade_unparsable_answer :
  let truth := computeGameTruth small_need_scenario END in
  read_answer {[ "cap_ann"%string := "abc"%string ]} "cap_ann" = NaN
  /\ grade ann {[ "cap_ann"%string := "abc"%string ]} truth
       !! "cap_ann"%string = Some incorrect
  /\ grade ann {[ "cap_ann"%string := "0"%string ]} truth
       !! "cap_ann"%string = Some correct
  /\ grade ann {[ "cap_ann"%string := ""%string ]} truth
       !! "cap_ann"%string = Some correct
  /\ gradeOne (Fin 0) (Fin (capA truth)) = correct
  /\ parseCurrencyToNumber "abc" = 0%Q.
Proof. vm_compute. repeat split. Qed.

(** * Further properties of the code *)

(** ** The generator stream *)

Lemma mod_two32_periodic x : (x + Int32.two32) mod Int32.two32 = x mod Int32.two32.
Proof.
  rewrite <- (Z.mul_1_l Int32.two32) at 1.
  apply Z.mod_add. unfold Int32.two32. lia.
Qed.




(** X2. [randInt lo hi] returns an integer between [lo] and [hi], both
    included, whatever the state of the generator. *)
Theorem randInt_within_bounds (lo hi t : Z) (Hle : lo <= hi) :
  lo <= fst (randInt lo hi t) <= hi.
Proof. apply (post_randInt lo hi Hle). Qed.

Lemma randInt_within_bounds_witness : 3 <= fst (randInt 3 9 2024) <= 9.
Proof. apply (randInt_within_bounds 3 9 2024). lia. Defined.

Lemma post_randFloat lo hi :
  (lo < hi)%Q -> post (randFloat lo hi) (fun x => lo <= x < hi)%Q.
Proof.
  intros Hlt. unfold randFloat.
  apply (post_bind _ _ _ _ post_rng). intros u [Hu0 Hu1].
  apply post_ret.
  assert (H0 : (0 <= u * (hi - lo))%Q) by (apply Qmult_le_0_compat; lra).
  assert (H1 : (u * (hi - lo) < 1 * (hi - lo))%Q)
    by (apply Qmult_lt_compat_r; lra).
  split; lra.
Qed.

(** X3. [randFloat lo hi] returns a number in [lo, hi): the lower bound
    can be drawn, the upper bound cannot. *)
Theorem randFloat_within_bounds (lo hi : Q) (t : Z) (Hlt : (lo < hi)%Q) :
  (lo <= fst (randFloat lo hi t) < hi)%Q.
Proof. apply (post_randFloat lo hi Hlt). Qed.

Lemma randFloat_within_bounds_witness :
  (0.02 <= fst (randFloat 0.02 0.04 7%Z) < 0.04)%Q.
Proof. apply (randFloat_within_bounds 0.02 0.04 7%Z). reflexivity. Defined.

(** ** Seed deriver, beyond the first ten problems *)

(** X4. A derived seed is always a 32-bit unsigned number, it depends on
    the base only modulo 2^32, and for a fixed problem index two
    different 32-bit bases give different seeds. *)
Theorem splitSeed_range_and_base (idx : Z) :
  (forall base, 0 <= splitSeed base idx < 2 ^ 32)
  /\ (forall base, splitSeed (base + 2 ^ 32) idx = splitSeed base idx)
  /\ (forall b1 b2, 0 <= b1 < 2 ^ 32 -> 0 <= b2 < 2 ^ 32 -> b1 <> b2 ->
        splitSeed b1 idx <> splitSeed b2 idx).
Proof.
  change (2 ^ 32) with Int32.two32.
  split; [| split].
  - intros base. apply Int32Facts.toUint32_range.
  - intros base. rewrite !splitSeed_unsigned, mod_two32_periodic. reflexivity.
  - intros b1 b2 H1 H2 Hne Heq. apply Hne.
    rewrite !splitSeed_unsigned in Heq.
    rewrite (Z.mod_small b1), (Z.mod_small b2) in Heq by assumption.
    apply (f_equal (fun x => Z.lxor x (((idx + 1) * GOLD) mod Int32.two32))) in Heq.
    rewrite !Z.lxor_assoc, Z.lxor_nilpotent, !Z.lxor_0_r in Heq. exact Heq.
Qed.

Lemma splitSeed_range_and_base_witness :
  0 <= splitSeed 42 3 < 2 ^ 32 /\ splitSeed 42 3 <> splitSeed 43 3.
Proof.
  split.
  - apply (splitSeed_range_and_base 3).
  - apply (proj2 (proj2 (splitSeed_range_and_base 3)) 42 43); lia.
Defined.

(** X5. For any base, two different problem indices less than 2^32
    apart never share a seed: the multiplier is odd, so a run of "new
    problem" clicks cannot repeat a seed before 2^32 problems. *)
Theorem splitSeed_indices_distinct (base i j : Z)
    (Hd : Z.abs (i - j) < 2 ^ 32) (Hne : i <> j) :
  splitSeed base i <> splitSeed base j.
Proof.
  intros Heq. apply Hne. rewrite !splitSeed_unsigned in Heq.
  apply Int32Facts.lxor_cancel_l in Heq.
  apply GOLD_mul_injective; assumption.
Qed.

Lemma splitSeed_indices_distinct_witness :
  splitSeed 123456789 0 <> splitSeed 123456789 4000000000.
Proof.
  apply (splitSeed_indices_distinct 123456789 0 4000000000); lia.
Defined.

(** ** Real rate *)

Lemma one_plus_real_rate r g :
  ~ (1 + g == 0)%Q -> (1 + computeRealRate r g == (1 + r) / (1 + g))%Q.
Proof. intros Hg. unfold computeRealRate. field. exact Hg. Qed.



(** ** Required savings: orderings *)

Lemma savings_divisor_pos r N :
  (-1 < r)%Q -> 1 <= N ->
  (0 < / (if Qlt_b (Qabs r) 1e-12 then inject_Z N
          else ((1 + r) ^ N - 1) / r))%Q.
Proof.
  intros Hr HN. apply Qinv_lt_0_compat.
  destruct (Qlt_b (Qabs r) 1e-12) eqn:E.
  - change 0%Q with (inject_Z 0). rewrite <- Zlt_Qlt. lia.
  - apply accumulation_factor_pos; [exact Hr | | exact HN].
    apply (Qabs_small_or_nonzero r 1e-12); [reflexivity | exact E].
Qed.

Lemma annualSavings_short_div PVcur K r N timing :
  (PVcur * (1 + r) ^ N < K)%Q ->
  annualSavings PVcur K r N timing
  = timing_adjust timing r
      ((K - PVcur * (1 + r) ^ N)
       / (if Qlt_b (Qabs r) 1e-12 then inject_Z N
          else ((1 + r) ^ N - 1) / r))%Q.
Proof.
  intros H. rewrite (annualSavings_short _ _ _ _ _ H).
  destruct (Qlt_b (Qabs r) 1e-12); reflexivity.
Qed.

Lemma annualSavings_mono PV1 PV2 K1 K2 r N timing :
  (-1 < r)%Q -> 1 <= N -> (K1 <= K2)%Q -> (PV2 <= PV1)%Q ->
  (annualSavings PV1 K1 r N timing <= annualSavings PV2 K2 r N timing)%Q.
Proof.
  intros Hr HN HK HPV.
  assert (HA : (0 < (1 + r) ^ N)%Q) by (apply Qpower_0_lt; lra).
  assert (Hfv : (PV2 * (1 + r) ^ N <= PV1 * (1 + r) ^ N)%Q)
    by (apply Qmult_le_compat_r; lra).
  destruct (Qlt_le_dec (PV1 * (1 + r) ^ N) K1) as [Hs1 | Hf1].
  - assert (Hs2 : (PV2 * (1 + r) ^ N < K2)%Q) by lra.
    rewrite (annualSavings_short_div _ _ _ _ _ Hs1).
    rewrite (annualSavings_short_div _ _ _ _ _ Hs2).
    pose proof (savings_divisor_pos r N Hr HN) as HD.
    set (D := (if Qlt_b (Qabs r) 1e-12 then inject_Z N
               else ((1 + r) ^ N - 1) / r)%Q) in *.
    assert (Hend : ((K1 - PV1 * (1 + r) ^ N) / D
                    <= (K2 - PV2 * (1 + r) ^ N) / D)%Q).
    { unfold Qdiv. apply Qmult_le_compat_r; lra. }
    destruct timing; cbn [timing_adjust]; [exact Hend |].
    unfold Qdiv at 1 3. apply Qmult_le_compat_r; [exact Hend |].
    apply Qlt_le_weak, Qinv_lt_0_compat. lra.
  - rewrite (annualSavings_funded _ _ _ _ _ Hf1).
    apply annualSavings_nonneg; assumption.
Qed.





(** ** Truth: edge cases and orderings *)

(** The scenario with another bequest target. *)
Definition with_bequest (scn : GameScenario) (b : option Q) : GameScenario :=
  {| name := name scn; bio := bio scn; income := income scn; wrr := wrr scn;
     ss := ss scn; rwle := rwle scn; rle := rle scn; g := g scn; r := r scn;
     pvcur := pvcur scn; rRetire := rRetire scn; bequest := b |}.

Lemma Math_max_0_nonneg x : (0 <= Math_max 0 x)%Q.
Proof.
  unfold Math_max. destruct (Qle_bool 0 x) eqn:E.
  - apply Qle_bool_iff. exact E.
  - apply Qle_refl.
Qed.

Lemma Math_max_0_of_nonpos x : (x <= 0)%Q -> (Math_max 0 x == 0)%Q.
Proof.
  intros H. unfold Math_max. destruct (Qle_bool 0 x) eqn:E.
  - apply Qle_bool_iff in E. lra.
  - reflexivity.
Qed.

Lemma capitalAnnuity_of_zero pmt1 rReal RLE :
  (pmt1 == 0)%Q -> (capitalAnnuity pmt1 rReal RLE == 0)%Q.
Proof.
  intros H. unfold capitalAnnuity.
  destruct (Qlt_b (Qabs rReal) 1e-12); rewrite H; ring.
Qed.

Lemma Qdiv_of_zero x y : (x == 0)%Q -> (x / y == 0)%Q.
Proof. intros H. unfold Qdiv. rewrite H. ring. Qed.

(** X11. A shortfall is never negative, and a retiree whose pension
    covers the replacement income has nothing to fund: with no bequest,
    savings that are not negative, the three rates between 0 and 100%
    and at most 100 years to and in retirement, the three capital
    figures are zero and the three required deposits are exactly 0.
    (Inside these bounds every power is finite and no division is by
    zero, so that the zero shortfall is not turned into a NaN.) *)
Theorem surplus_needs_no_capital (scn : GameScenario) (timing : Timing) :
  let t := computeGameTruth scn timing in
  (0 <= need_today t)%Q
  /\ ((wrr scn * income scn <= ss scn)%Q -> bequest scn = None ->
      (0 <= pvcur scn)%Q ->
      (0 <= g scn <= 1)%Q -> (0 <= rate_in_retirement scn <= 1)%Q ->
      (0 <= r scn <= 1)%Q ->
      0 <= rwle scn <= 100 -> 0 <= rle scn <= 100 ->
      (need_today t == 0)%Q /\ (capA t == 0)%Q
      /\ (totalCPM t == 0)%Q /\ (totalPPPM t == 0)%Q
      /\ svA t = 0%Q /\ svCPM t = 0%Q /\ svPPPM t = 0%Q).
Proof.
  unfold rate_in_retirement.
  destruct scn as [nm bi inc w s yw yr gg rr pv rret beq].
  cbn -[capitalAnnuity annualSavings Qpower Math_max computeRealRate].
  split; [apply Math_max_0_nonneg |].
  intros Hsur -> Hpv Hg Hrate Hr Hyw Hyr.
  set (rd := match rret with Some x => x | None => rr end) in *.
  assert (Hneed : (Math_max 0 (w * inc - s) == 0)%Q)
    by (apply Math_max_0_of_nonpos; lra).
  assert (Hcap : (capitalAnnuity (Math_max 0 (w * inc - s) * (1 + gg) ^ yw)
                    (computeRealRate rd gg) yr + 0 == 0)%Q).
  { rewrite capitalAnnuity_of_zero; [ring |]. rewrite Hneed. ring. }
  set (cap := (capitalAnnuity _ _ _ + 0)%Q) in *.
  assert (Hk1 : (cap + cap / (1 + rd) ^ yr == 0)%Q).
  { rewrite (Qdiv_of_zero _ _ Hcap), Hcap. ring. }
  assert (Hk2 : (cap + cap / (1 + computeRealRate rd gg) ^ yr == 0)%Q).
  { rewrite (Qdiv_of_zero _ _ Hcap), Hcap. ring. }
  assert (Hfv : (0 <= pv * (1 + rr) ^ yw)%Q).
  { apply Qmult_le_0_compat; [exact Hpv |]. apply Qpower_0_le. lra. }
  repeat split; try assumption; apply annualSavings_funded; lra.
Qed.

Lemma surplus_needs_no_capital_witness :
  let scn := {| name := ""; bio := ""; income := 50000; wrr := 0.5;
                ss := 30000; rwle := 20; rle := 25; g := 0.03; r := 0.08;
                pvcur := 1000; rRetire := None; bequest := None |} in
  svA (computeGameTruth scn END) = 0%Q.
Proof.
  intros scn.
  apply (proj2 (surplus_needs_no_capital scn END));
    [vm_compute; discriminate | reflexivity | vm_compute; discriminate
    | split; vm_compute; discriminate | split; vm_compute; discriminate
    | split; vm_compute; discriminate
    | unfold scn; cbn; lia | unfold scn; cbn; lia].
Defined.

Lemma bequestPV_value b P :
  ((if Qeq_bool b 0 then 0 else b / P) == b / P)%Q.
Proof.
  destruct (Qeq_bool b 0) eqn:E; [| reflexivity].
  apply Qeq_bool_iff in E. symmetry. apply Qdiv_of_zero. exact E.
Qed.

(** X12. A larger bequest target never lowers the annuity capital, and
    a bequest of zero counts as no bequest.  The range: a shortfall of
    at most 10^12, a pension between 0 and 10^12, inflation and the
    in-retirement rate between 0 and 100%, at most 100 years to and in
    retirement.  (The capital need not rise: a bequest that is small
    against the annuity is lost in the rounding of the sum.) *)
Theorem bequest_never_lowers_capA (scn : GameScenario) (b1 b2 : Q) (timing : Timing)
    (Hb : (b1 <= b2)%Q)
    (Hneed : (wrr scn * income scn - ss scn <= 1000000000000)%Q)
    (Hss : (0 <= ss scn <= 1000000000000)%Q)
    (Hg : (0 <= g scn <= 1)%Q)
    (Hrate : (0 <= rate_in_retirement scn <= 1)%Q)
    (Hrwle : 0 <= rwle scn <= 100)
    (Hrle : 0 <= rle scn <= 100) :
  let cap b := capA (computeGameTruth (with_bequest scn b) timing) in
  (cap (Some b1) <= cap (Some b2))%Q
  /\ cap (Some 0%Q) = cap None.
Proof.
  unfold rate_in_retirement in *.
  destruct scn as [nm bi inc w s yw yr gg rr pv rret beq].
  cbn -[capitalAnnuity annualSavings Qpower Math_max computeRealRate] in *.
  set (rd := match rret with Some x => x | None => rr end) in *.
  set (ann := capitalAnnuity _ _ _). clearbody ann.
  assert (Hreal : (0 < 1 + computeRealRate rd gg)%Q).
  { rewrite one_plus_real_rate by lra. apply Qdiv_pos; lra. }
  pose proof (Qpower_0_lt _ yr Hreal) as HP.
  set (P := ((1 + computeRealRate rd gg) ^ yr)%Q) in *. clearbody P.
  split; [| reflexivity].
  rewrite !bequestPV_value.
  assert (Hle : (b1 / P <= b2 / P)%Q).
  { unfold Qdiv. apply Qmult_le_compat_r; [exact Hb |].
    apply Qlt_le_weak, Qinv_lt_0_compat, HP. }
  lra.
Qed.

Lemma bequest_never_lowers_capA_witness :
  let scn := {| name := ""; bio := ""; income := 100; wrr := 1;
                ss := 50; rwle := 1; rle := 1; g := 0; r := 1;
                pvcur := 0; rRetire := None; bequest := None |} in
  (capA (computeGameTruth (with_bequest scn (Some 1000%Q)) END)
   <= capA (computeGameTruth (with_bequest scn (Some 2000%Q)) END))%Q.
Proof.
  intros scn.
  apply (bequest_never_lowers_capA scn 1000 2000 END);
    [vm_compute; discriminate | vm_compute; discriminate
    | split; vm_compute; discriminate | split; vm_compute; discriminate
    | split; vm_compute; discriminate
    | unfold scn; cbn; lia | unfold scn; cbn; lia].
Defined.

Lemma Qpower_base_lt a b n :
  (0 < a)%Q -> (a < b)%Q -> 0 < n -> (a ^ n < b ^ n)%Q.
Proof.
  intros Ha Hab Hn.
  assert (Hq : (1 < b / a)%Q) by (apply Qlt_shift_div_l; lra).
  pose proof (Qpower_1_lt (b / a) n Hq Hn) as Hp.
  rewrite Qdiv_power in Hp.
  pose proof (Qpower_0_lt a n Ha) as Han.
  assert (H1 : (1 * a ^ n < b ^ n / a ^ n * a ^ n)%Q)
    by (apply Qmult_lt_compat_r; assumption).
  assert (E : (b ^ n / a ^ n * a ^ n == b ^ n)%Q) by (field; lra).
  lra.
Qed.

Lemma truth_pppm_above_cpm scn timing :
  (0 < capA (computeGameTruth scn timing))%Q ->
  (0 < g scn)%Q -> (g scn < rate_in_retirement scn)%Q -> 1 <= rle scn ->
  (totalCPM (computeGameTruth scn timing)
   < totalPPPM (computeGameTruth scn timing))%Q.
Proof.
  intros Hcap Hg Hrate Hrle.
  unfold rate_in_retirement in *. revert Hcap.
  destruct scn as [nm bi inc w s yw yr gg rr pv rret beq].
  cbn -[capitalAnnuity annualSavings Qpower Math_max computeRealRate] in *.
  set (rd := match rret with Some x => x | None => rr end) in *.
  set (cap := (capitalAnnuity _ _ _ + _)%Q). clearbody cap. intros Hcap.
  assert (Hone : (1 + computeRealRate rd gg == (1 + rd) / (1 + gg))%Q)
    by (apply one_plus_real_rate; lra).
  assert (Hlo : (1 < (1 + rd) / (1 + gg))%Q) by (apply Qlt_shift_div_l; lra).
  assert (Hhi : ((1 + rd) / (1 + gg) < 1 + rd)%Q).
  { apply Qlt_shift_div_r; [lra |].
    assert (H : (0 < (1 + rd) * gg)%Q) by (apply Qmult_lt_0_compat; lra).
    lra. }
  set (X := ((1 + rd) / (1 + gg))%Q) in *. clearbody X.
  set (rreal := computeRealRate rd gg) in *. clearbody rreal.
  assert (Hpow : ((1 + rreal) ^ yr < (1 + rd) ^ yr)%Q)
    by (apply Qpower_base_lt; [lra | lra | lia]).
  assert (Hp1 : (0 < (1 + rreal) ^ yr)%Q)
    by (apply Qpower_0_lt; lra).
  assert (Hp2 : (0 < (1 + rd) ^ yr)%Q) by (apply Qpower_0_lt; lra).
  set (P := ((1 + rreal) ^ yr)%Q) in *. clearbody P.
  set (N := ((1 + rd) ^ yr)%Q) in *. clearbody N.
  assert (Hinv : (/ N < / P)%Q).
  { apply -> Qinv_lt_contravar; assumption. }
  assert (Hk : (cap * / N < cap * / P)%Q).
  { rewrite !(Qmult_comm cap). apply Qmult_lt_compat_r; assumption. }
  unfold Qdiv. lra.
Qed.







Lemma truth_deposits_ordered scn timing :
  (0 <= capA (computeGameTruth scn timing))%Q ->
  (-1 < g scn)%Q -> (-1 < rate_in_retirement scn)%Q ->
  (-1 < r scn)%Q -> 1 <= rwle scn ->
  (svA (computeGameTruth scn timing) <= svCPM (computeGameTruth scn timing))%Q
  /\ (svA (computeGameTruth scn timing) <= svPPPM (computeGameTruth scn timing))%Q.
Proof.
  intros Hcap Hg Hrate Hr Hrwle.
  unfold rate_in_retirement in *. revert Hcap.
  destruct scn as [nm bi inc w s yw yr gg rr pv rret beq].
  cbn -[capitalAnnuity annualSavings Qpower Math_max computeRealRate] in *.
  set (rd := match rret with Some x => x | None => rr end) in *.
  set (cap := (capitalAnnuity _ _ _ + _)%Q). clearbody cap. intros Hcap.
  assert (Hreal : (0 < 1 + computeRealRate rd gg)%Q).
  { rewrite one_plus_real_rate by lra. apply Qdiv_pos; lra. }
  assert (H1 : (0 <= cap / (1 + rd) ^ yr)%Q).
  { unfold Qdiv. apply Qmult_le_0_compat; [exact Hcap |].
    apply Qinv_le_0_compat, Qpower_0_le. lra. }
  assert (H2 : (0 <= cap / (1 + computeRealRate rd gg) ^ yr)%Q).
  { unfold Qdiv. apply Qmult_le_0_compat; [exact Hcap |].
    apply Qinv_le_0_compat, Qpower_0_le. lra. }
  split; apply annualSavings_mono; try assumption; lra.
Qed.



(** ** Generator: every field stays inside the range table *)

Lemma post_conj {A : Type} (m : Rng A) (P Q : A -> Prop) :
  post m P -> post m Q -> post m (fun a => P a /\ Q a).
Proof. intros HP HQ t. split; [apply HP | apply HQ]. Qed.

Lemma post_weaken {A : Type} (m : Rng A) (P Q : A -> Prop) :
  post m P -> (forall a, P a -> Q a) -> post m Q.
Proof. intros HP HPQ t. apply HPQ, HP. Qed.

Lemma Math_round_mono x y : (x <= y)%Q -> Math_round x <= Math_round y.
Proof.
  intros H. unfold Math_round. apply Qfloor_resp_le. lra.
Qed.

Lemma Math_round_inject_Z k : Math_round (inject_Z k) = k.
Proof.
  unfold Math_round.
  pose proof (Qfloor_le (inject_Z k + 1 / 2)) as Hlo.
  pose proof (Qlt_floor (inject_Z k + 1 / 2)) as Hhi.
  set (f := Qfloor (inject_Z k + 1 / 2)) in *. clearbody f.
  change (1 / 2)%Q with (1 # 2)%Q in *.
  destruct (Z_lt_le_dec k f) as [Hgt | Hle].
  - exfalso. assert (H : (inject_Z (k + 1) <= inject_Z f)%Q)
      by (rewrite <- Zle_Qle; lia).
    rewrite inject_Z_plus in H. change (inject_Z 1) with 1%Q in H. lra.
  - destruct (Z_lt_le_dec f k) as [Hlt | Hge]; [| lia].
    exfalso. assert (H : (inject_Z (f + 1) <= inject_Z k)%Q)
      by (rewrite <- Zle_Qle; lia).
    rewrite inject_Z_plus in *. change (inject_Z 1) with 1%Q in *. lra.
Qed.

(** Rounding to a multiple of [m] does not leave a range whose ends are
    multiples of [m]. *)
Lemma round_to_multiple_bounds m a b x :
  0 < m -> a * m <= x <= b * m ->
  a * m <= Math_round (inject_Z x / inject_Z m) * m <= b * m.
Proof.
  intros Hm [Hlo Hhi].
  assert (Hmq : (0 < inject_Z m)%Q).
  { change 0%Q with (inject_Z 0). rewrite <- Zlt_Qlt. exact Hm. }
  assert (Ha : a <= Math_round (inject_Z x / inject_Z m)).
  { rewrite <- (Math_round_inject_Z a) at 1. apply Math_round_mono.
    apply Qle_shift_div_l; [exact Hmq |].
    rewrite <- inject_Z_mult, <- Zle_Qle. exact Hlo. }
  assert (Hb : Math_round (inject_Z x / inject_Z m) <= b).
  { rewrite <- (Math_round_inject_Z b) at 1. apply Math_round_mono.
    apply Qle_shift_div_r; [exact Hmq |].
    rewrite <- inject_Z_mult, <- Zle_Qle. exact Hhi. }
  nia.
Qed.

Definition Qwithin (lohi : Q * Q) (x : Q) : Prop :=
  (fst lohi <= x <= snd lohi)%Q.

Definition Zwithin (lohi : Z * Z) (x : Z) : Prop :=
  fst lohi <= x <= snd lohi.

(** The fields of a scenario against the range table of its tier. *)
Definition within_ranges (d : Difficulty) (s : GameScenario) : Prop :=
  (exists k, income s = inject_Z k /\ Zwithin (rg_income (RANGES d)) k)
  /\ Qwithin (rg_wrr (RANGES d)) (wrr s)
  /\ (exists k, ss s = inject_Z k /\ Zwithin (rg_ss (RANGES d)) k)
  /\ Zwithin (rg_rwle (RANGES d)) (rwle s)
  /\ Zwithin (rg_rle (RANGES d)) (rle s)
  /\ Qwithin (rg_g (RANGES d)) (g s)
  /\ Qwithin (rg_r (RANGES d)) (r s)
  /\ (exists k, pvcur s = inject_Z k /\ Zwithin (rg_pvcur (RANGES d)) k).

(** The optional fields: both present on the hard tier, the
    in-retirement rate within 2 points of [r] and the bequest a
    non-negative multiple of 1000; both absent otherwise. *)
Definition optional_fields (d : Difficulty) (s : GameScenario) : Prop :=
  match d with
  | hard =>
      (exists x, rRetire s = Some x /\ (r s - 0.02 <= x < r s + 0.02)%Q)
      /\ (exists k, bequest s = Some (inject_Z (k * 1000)) /\ 0 <= k)
  | _ => rRetire s = None /\ bequest s = None
  end.

Tactic Notation "draw_int" ident(x) ident(H) :=
  cbv zeta; eapply post_bind;
  [apply post_randInt; cbn; lia | intros x H; cbv beta in H].

Tactic Notation "draw_float" ident(x) ident(H) :=
  cbv zeta; eapply post_bind;
  [apply post_randFloat; reflexivity | intros x H; cbv beta in H].

Lemma no_bump g r bump :
  (g < r)%Q -> (if Qle_bool r g then (g + bump)%Q else r) = r.
Proof.
  intros H. destruct (Qle_bool r g) eqn:E; [| reflexivity].
  apply Qle_bool_iff in E. lra.
Qed.

Lemma generateScenario_draws_normal :
  post (generateScenario_draws normal)
       (fun s => within_ranges normal s /\ optional_fields normal s).
Proof.
  unfold generateScenario_draws. cbn [RANGES rg_income rg_wrr rg_ss rg_rwle rg_rle rg_g rg_r rg_pvcur fst snd].
  draw_int income Hincome. draw_float wrr Hwrr. draw_int ss Hss.
  draw_int rwle Hrwle. draw_int rle Hrle.
  draw_float g Hg. draw_float r Hr.
  rewrite no_bump by lra.
  draw_int pvcur Hpvcur.
  do 3 draw_ret. do 3 draw_any. apply post_ret.
  unfold within_ranges, optional_fields, Qwithin, Zwithin; cbn.
  repeat split; try lra; try lia; eexists; (split; [reflexivity | lia]).
Qed.

Lemma Math_max_0_id x : (0 <= x)%Q -> Math_max 0 x = x.
Proof.
  intros H. unfold Math_max. apply Qle_bool_iff in H. rewrite H. reflexivity.
Qed.

Lemma hard_rRetire_within g r :
  (g < 0.045)%Q -> (0.07 <= r)%Q ->
  post (hard_rRetire g r) (fun x => (r - 0.02 <= x < r + 0.02)%Q).
Proof.
  intros Hg Hr. unfold hard_rRetire.
  draw_float delta Hdelta. apply post_ret.
  rewrite Math_max_0_id by lra. rewrite no_bump by lra. lra.
Qed.

Lemma hard_bequest_multiple income wrr ss rwle rle g r rRetire :
  post (hard_bequest income wrr ss rwle rle g r rRetire)
       (fun b => exists k, b = inject_Z (k * 1000) /\ 0 <= k).
Proof.
  unfold hard_bequest. draw_any. apply post_ret.
  match goal with |- context [Math_round ?x] => generalize (Math_round x) end.
  intros m. unfold Math_max.
  destruct (Qle_bool 0 (inject_Z (m * 1000))) eqn:E.
  - exists m. split; [reflexivity |].
    apply Qle_bool_iff in E. change 0%Q with (inject_Z 0) in E.
    rewrite <- Zle_Qle in E. lia.
  - exists 0. split; [reflexivity | lia].
Qed.

Lemma generateScenario_draws_hard :
  post (generateScenario_draws hard)
       (fun s => within_ranges hard s /\ optional_fields hard s).
Proof.
  unfold generateScenario_draws. cbn [RANGES rg_income rg_wrr rg_ss rg_rwle rg_rle rg_g rg_r rg_pvcur fst snd].
  draw_int income Hincome. draw_float wrr Hwrr. draw_int ss Hss.
  draw_int rwle Hrwle. draw_int rle Hrle.
  draw_float g Hg. draw_float r Hr.
  rewrite no_bump by lra.
  draw_int pvcur Hpvcur.
  draw_ret.
  cbv zeta. eapply post_bind.
  { eapply post_bind; [apply (hard_rRetire_within g r); lra |].
    intros x Hx. cbv beta in Hx.
    apply post_ret with
      (P := fun o => exists y, o = Some y /\ (r - 0.02 <= y < r + 0.02)%Q).
    exists x. split; [reflexivity | exact Hx]. }
  intros o (x & -> & Hx).
  cbv zeta. eapply post_bind.
  { eapply post_bind; [apply hard_bequest_multiple |].
    intros b Hb. cbv beta in Hb.
    apply post_ret with
      (P := fun o => exists k, o = Some (inject_Z (k * 1000)) /\ 0 <= k).
    destruct Hb as (k & -> & Hk). exists k. split; [reflexivity | exact Hk]. }
  intros o (k & -> & Hk).
  do 3 draw_any. apply post_ret.
  unfold within_ranges, optional_fields, Qwithin, Zwithin; cbn.
  repeat split; try lra; try lia;
    try (eexists; (split; [reflexivity | first [lia | lra]])).
Qed.

Lemma In_bounds (l : list Q) lo hi x :
  forallb (fun y => Qle_bool lo y && Qle_bool y hi) l = true ->
  In x l -> (lo <= x <= hi)%Q.
Proof.
  intros Hall Hin. rewrite forallb_forall in Hall.
  specialize (Hall x Hin). apply andb_true_iff in Hall.
  destruct Hall as [H1 H2]. apply Qle_bool_iff in H1, H2. split; assumption.
Qed.

Lemma easy_override_within income ss rwle rle :
  Zwithin (50000, 90000) income -> Zwithin (12000, 28000) ss ->
  Zwithin (15, 25) rwle -> Zwithin (20, 30) rle ->
  post (easy_override income ss rwle rle)
       (fun '(income', wrr, ss', rwle', rle', g, r, pvcur) =>
          Zwithin (50000, 90000) income' /\ Qwithin (0.65, 0.85)%Q wrr
          /\ Zwithin (12000, 28000) ss' /\ Zwithin (15, 25) rwle'
          /\ Zwithin (20, 30) rle' /\ Qwithin (0.02, 0.035)%Q g
          /\ Qwithin (0.06, 0.09)%Q r /\ pvcur = 0).
Proof.
  unfold Zwithin, Qwithin; cbn [fst snd]. intros Hi Hs Hrw Hrl.
  unfold easy_override.
  draw_int iw Hiw. draw_int ig Hig. draw_int ir Hir.
  apply post_ret.
  pose proof (pick_In wrrChoices iw Hiw) as Hw.
  pose proof (pick_In gChoices ig Hig) as Hg.
  pose proof (pick_In rChoices ir Hir) as Hr.
  rewrite (clean_rates_ordered _ _ Hg Hr).
  split; [apply (round_to_multiple_bounds 1000 50 90 income); lia |].
  split; [apply (In_bounds wrrChoices); [reflexivity | exact Hw] |].
  split; [apply (round_to_multiple_bounds 1000 12 28 ss); lia |].
  split; [apply (round_to_multiple_bounds 5 3 5 rwle); lia |].
  split; [apply (round_to_multiple_bounds 5 4 6 rle); lia |].
  split; [apply (In_bounds gChoices); [reflexivity | exact Hg] |].
  split; [apply (In_bounds rChoices); [reflexivity | exact Hr] |].
  reflexivity.
Qed.

Lemma generateScenario_draws_easy_within :
  post (generateScenario_draws easy)
       (fun s => within_ranges easy s /\ optional_fields easy s).
Proof.
  unfold generateScenario_draws. cbn [RANGES rg_income rg_wrr rg_ss rg_rwle rg_rle rg_g rg_r rg_pvcur fst snd].
  draw_int income Hincome. draw_any. draw_int ss Hss.
  draw_int rwle Hrwle. draw_int rle Hrle.
  do 3 draw_any.
  cbv zeta. eapply post_bind;
    [apply (easy_override_within income ss rwle rle); assumption |].
  intros [[[[[[[income' wrr] ss'] rwle'] rle'] g] r] pvcur].
  unfold Zwithin, Qwithin; cbn [fst snd].
  intros (Hi & Hw & Hs & Hrw & Hrl & Hg & Hr & ->).
  do 2 draw_ret. do 3 draw_any. apply post_ret.
  unfold within_ranges, optional_fields, Qwithin, Zwithin; cbn.
  repeat split; try lra; try lia;
    try (eexists; (split; [reflexivity | lia])).
Qed.

Lemma generateScenario_draws_shape d :
  post (generateScenario_draws d)
       (fun s => within_ranges d s /\ optional_fields d s).
Proof.
  destruct d;
    [apply generateScenario_draws_easy_within
    | apply generateScenario_draws_normal
    | apply generateScenario_draws_hard].
Qed.

(** X15. For every seed and every tier, each numeric field of the
    generated scenario lies within the tier's range table, ends
    included; [income], [ss] and [pvcur] are whole numbers.  In
    particular the first [r <= g] bump never fires, and on the easy
    tier the rounding and the clean option sets do not leave the
    ranges. *)
Theorem generated_scenario_within_ranges (seed : Z) (d : Difficulty) :
  within_ranges d (generateScenarioFromSeed seed d).
Proof.
  apply (generateScenarioFromSeed_post (within_ranges d)).
  apply (post_weaken _ _ _ (generateScenario_draws_shape d)).
  intros s [H _]. exact H.
Qed.

(** X16. The hard tier always sets both optional fields: [rRetire]
    between [r - 0.02] and [r + 0.02] (the floor at 0 and the bump
    against [g] never fire) and [bequest] a non-negative multiple of
    1000; the easy and normal tiers never set either. *)
Theorem generated_optional_fields (seed : Z) (d : Difficulty) :
  optional_fields d (generateScenarioFromSeed seed d).
Proof.
  apply (generateScenarioFromSeed_post (optional_fields d)).
  apply (post_weaken _ _ _ (generateScenario_draws_shape d)).
  intros s [_ H]. exact H.
Qed.

(** ** Generator and engine together *)

Definition bequest_nonneg (s : GameScenario) : Prop :=
  match bequest s with Some b => (0 <= b)%Q | None => True end.

Lemma truth_capA_pos scn timing :
  (0 < wrr scn * income scn - ss scn)%Q ->
  bequest_nonneg scn ->
  (g scn < rate_in_retirement scn)%Q -> (-1 < g scn)%Q -> 1 <= rle scn ->
  (0 < need_today (computeGameTruth scn timing))%Q
  /\ (0 < r_real (computeGameTruth scn timing))%Q
  /\ (0 < capA (computeGameTruth scn timing))%Q.
Proof.
  unfold rate_in_retirement, bequest_nonneg.
  destruct scn as [nm bi inc w s yw yr gg rr pv rret beq].
  cbn -[capitalAnnuity annualSavings Qpower Math_max computeRealRate].
  intros Hneed Hbeq Hrate Hg Hrle.
  set (rd := match rret with Some x => x | None => rr end) in *.
  rewrite Math_max_0_id by lra.
  assert (Hone : (1 + computeRealRate rd gg == (1 + rd) / (1 + gg))%Q)
    by (apply one_plus_real_rate; lra).
  assert (Hq : (1 < (1 + rd) / (1 + gg))%Q) by (apply Qlt_shift_div_l; lra).
  set (X := ((1 + rd) / (1 + gg))%Q) in *. clearbody X.
  set (rreal := computeRealRate rd gg) in *. clearbody rreal.
  assert (Hreal : (0 < rreal)%Q) by lra.
  split; [exact Hneed | split; [exact Hreal |]].
  assert (Hann : (0 < capitalAnnuity ((w * inc - s) * (1 + gg) ^ yw) rreal yr)%Q).
  { apply capitalAnnuity_pos; [| exact Hreal | exact Hrle].
    apply Qmult_lt_0_compat; [exact Hneed |]. apply Qpower_0_lt. lra. }
  assert (Hpv : (0 <= match beq with
                      | Some b => if Qeq_bool b 0 then 0 else b / (1 + rreal) ^ yr
                      | None => 0
                      end)%Q).
  { destruct beq as [b |]; [| apply Qle_refl].
    rewrite bequestPV_value. unfold Qdiv.
    apply Qmult_le_0_compat; [exact Hbeq |].
    apply Qinv_le_0_compat, Qpower_0_le. lra. }
  set (ann := capitalAnnuity _ _ _) in *. clearbody ann.
  match type of Hpv with (0 <= ?b)%Q => generalize dependent b end.
  intros bpv Hbpv. lra.
Qed.

Lemma truth_totals_above_capA scn timing :
  (0 < capA (computeGameTruth scn timing))%Q ->
  (-1 < g scn)%Q -> (g scn < rate_in_retirement scn)%Q ->
  (capA (computeGameTruth scn timing) < totalCPM (computeGameTruth scn timing))%Q
  /\ (capA (computeGameTruth scn timing) < totalPPPM (computeGameTruth scn timing))%Q.
Proof.
  unfold rate_in_retirement.
  destruct scn as [nm bi inc w s yw yr gg rr pv rret beq].
  cbn -[capitalAnnuity annualSavings Qpower Math_max computeRealRate].
  set (rd := match rret with Some x => x | None => rr end) in *.
  set (cap := (capitalAnnuity _ _ _ + _)%Q). clearbody cap.
  intros Hcap Hg Hrate.
  assert (Hreal : (0 < 1 + computeRealRate rd gg)%Q).
  { rewrite one_plus_real_rate by lra. apply Qdiv_pos; lra. }
  assert (H1 : (0 < cap / (1 + rd) ^ yr)%Q).
  { apply Qdiv_pos; [exact Hcap |]. apply Qpower_0_lt. lra. }
  assert (H2 : (0 < cap / (1 + computeRealRate rd gg) ^ yr)%Q).
  { apply Qdiv_pos; [exact Hcap |]. apply Qpower_0_lt. exact Hreal. }
  split; lra.
Qed.

(** What the range tables and the bumps give, in the form the engine
    needs it. *)
Lemma generated_scenario_sound seed d :
  let s := generateScenarioFromSeed seed d in
  (0 < wrr s * income s - ss s)%Q /\ bequest_nonneg s
  /\ (0 < g s)%Q /\ (g s < rate_in_retirement s)%Q
  /\ (0 < r s)%Q /\ 1 <= rwle s /\ 1 <= rle s /\ (0 <= pvcur s)%Q.
Proof.
  apply (generateScenarioFromSeed_post
           (fun s =>
              (0 < wrr s * income s - ss s)%Q /\ bequest_nonneg s
              /\ (0 < g s)%Q /\ (g s < rate_in_retirement s)%Q
              /\ (0 < r s)%Q /\ 1 <= rwle s /\ 1 <= rle s /\ (0 <= pvcur s)%Q)).
  apply (post_weaken _ _ _
           (post_conj _ _ _ (generateScenario_draws_shape d)
                            (generateScenario_draws_rates d))).
  intros s [[Hrange Hopt] [Hgr Hret]].
  assert (Hrate : (g s < rate_in_retirement s)%Q).
  { unfold rate_in_retirement. destruct (rRetire s) as [x |];
      [apply Hret; reflexivity | exact Hgr]. }
  assert (Hbeq : bequest_nonneg s).
  { unfold bequest_nonneg. destruct d; cbn in Hopt.
    - destruct Hopt as [_ ->]. exact I.
    - destruct Hopt as [_ ->]. exact I.
    - destruct Hopt as [_ (k & -> & Hk)].
      change 0%Q with (inject_Z 0). rewrite <- Zle_Qle. lia. }
  destruct Hrange as ((ki & Hi & Hki) & Hw & (ks & Hs & Hks) & Hrw & Hrl
                      & Hg & Hr & (kp & Hp & Hkp)).
  rewrite Hi, Hs, Hp in *. clear Hi Hs Hp.
  unfold Qwithin, Zwithin in *.
  assert (Hinc : (inject_Z (fst (rg_income (RANGES d))) <= inject_Z ki)%Q)
    by (rewrite <- Zle_Qle; lia).
  assert (Hss : (inject_Z ks <= inject_Z (snd (rg_ss (RANGES d))))%Q)
    by (rewrite <- Zle_Qle; lia).
  assert (Hpv : (inject_Z 0 <= inject_Z kp)%Q).
  { rewrite <- Zle_Qle. destruct d; cbn in Hkp; lia. }
  set (qi := inject_Z ki) in *. set (qs := inject_Z ks) in *.
  clearbody qi qs.
  repeat split; try assumption;
    destruct d; cbn in *; try lia; try lra.
  - assert (0 <= (wrr s - 0.65) * (qi - inject_Z 50000))%Q
      by (apply Qmult_le_0_compat; lra).
    change (inject_Z 50000) with 50000%Q in *.
    change (inject_Z 28000) with 28000%Q in *. lra.
  - assert (0 <= (wrr s - 0.7) * (qi - inject_Z 60000))%Q
      by (apply Qmult_le_0_compat; lra).
    change (inject_Z 60000) with 60000%Q in *.
    change (inject_Z 30000) with 30000%Q in *. lra.
  - assert (0 <= (wrr s - 0.7) * (qi - inject_Z 80000))%Q
      by (apply Qmult_le_0_compat; lra).
    change (inject_Z 80000) with 80000%Q in *.
    change (inject_Z 40000) with 40000%Q in *. lra.
Qed.

(** X17. For every seed, every tier and either timing, the truth of the
    generated scenario is well formed: the shortfall, the real rate and
    the annuity capital are positive, the totals are ordered
    [capA < totalCPM < totalPPPM], and the deposits are not negative
    with the annuity deposit the smallest.  No generated problem
    divides by zero or asks for a negative amount. *)
Theorem generated_truth_well_formed (seed : Z) (d : Difficulty) (timing : Timing) :
  let t := computeGameTruth (generateScenarioFromSeed seed d) timing in
  (0 < need_today t)%Q /\ (0 < r_real t)%Q /\ (0 < capA t)%Q
  /\ (capA t < totalCPM t)%Q /\ (totalCPM t < totalPPPM t)%Q
  /\ (0 <= svA t)%Q /\ (svA t <= svCPM t)%Q /\ (svA t <= svPPPM t)%Q.
Proof.
  destruct (generated_scenario_sound seed d)
    as (Hneed & Hbeq & Hg & Hrate & Hr & Hrw & Hrl & Hpv).
  set (s := generateScenarioFromSeed seed d) in *. clearbody s.
  destruct (truth_capA_pos s timing Hneed Hbeq Hrate) as (H1 & H2 & H3);
    [lra | exact Hrl |].
  destruct (truth_totals_above_capA s timing H3) as [H4 _]; [lra | exact Hrate |].
  pose proof (truth_pppm_above_cpm s timing H3 Hg Hrate Hrl) as H5.
  destruct (truth_deposits_ordered s timing) as [H6 H7];
    [lra | lra | lra | lra | exact Hrw |].
  cbv zeta. repeat split; try assumption.
  destruct s as [nm bi inc w s0 yw yr gg rr pv rret beq].
  cbn -[capitalAnnuity annualSavings Qpower Math_max computeRealRate] in *.
  apply annualSavings_nonneg; [lra | exact Hrw].
Qed.

(** ** Grader: one grading action *)

(** The two answer fields of a method, and the truths they are graded
    against. *)
Definition method_fields (m : Method) : string * string :=
  match m with
  | ann => ("cap_ann", "sv_ann")
  | cpm => ("cap_cpm", "sv_cpm")
  | pppm => ("cap_pppm", "sv_pppm")
  end%string.

Definition method_capital (m : Method) (t : GameTruth) : Q :=
  match m with ann => capA t | cpm => totalCPM t | pppm => totalPPPM t end.

Definition method_savings (m : Method) (t : GameTruth) : Q :=
  match m with ann => svA t | cpm => svCPM t | pppm => svPPPM t end.

Lemma grade_as_inserts m answers truth :
  grade m answers truth
  = <[snd (method_fields m) :=
        gradeOne (read_answer answers (snd (method_fields m)))
                 (Fin (method_savings m truth))]>
      (<[fst (method_fields m) :=
           gradeOne (read_answer answers (fst (method_fields m)))
                    (Fin (method_capital m truth))]> ∅).
Proof. destruct m; reflexivity. Qed.

Lemma method_fields_distinct m : fst (method_fields m) <> snd (method_fields m).
Proof. destruct m; discriminate. Qed.

Lemma filter_length_Permutation {A : Type} (f : A -> bool) (l l' : list A) :
  l ≡ₚ l' -> length (List.filter f l) = length (List.filter f l').
Proof.
  induction 1 as [| x l l' _ IH | x y l | l l' l'' _ IH1 _ IH2]; cbn.
  - reflexivity.
  - destruct (f x); cbn; rewrite IH; reflexivity.
  - destruct (f x), (f y); reflexivity.
  - rewrite IH1. exact IH2.
Qed.

Lemma grade_map_to_list m answers truth :
  map_to_list (grade m answers truth)
  ≡ₚ [ (snd (method_fields m),
         gradeOne (read_answer answers (snd (method_fields m)))
                  (Fin (method_savings m truth)));
        (fst (method_fields m),
         gradeOne (read_answer answers (fst (method_fields m)))
                  (Fin (method_capital m truth))) ].
Proof.
  rewrite grade_as_inserts.
  rewrite map_to_list_insert.
  - rewrite map_to_list_insert by apply lookup_empty.
    rewrite map_to_list_empty. reflexivity.
  - rewrite lookup_insert_ne by apply method_fields_distinct.
    apply lookup_empty.
Qed.

(** X18. The result of grading has exactly the two fields of the active
    method, the capital graded against the method's capital and the
    deposit against the method's deposit; answers typed into the fields
    of the other methods play no part. *)
Theorem grade_two_fields (m : Method) (answers : gmap string string)
    (truth : GameTruth) :
  let res := grade m answers truth in
  res !! fst (method_fields m)
    = Some (gradeOne (read_answer answers (fst (method_fields m)))
                     (Fin (method_capital m truth)))
  /\ res !! snd (method_fields m)
    = Some (gradeOne (read_answer answers (snd (method_fields m)))
                     (Fin (method_savings m truth)))
  /\ (forall k, k <> fst (method_fields m) -> k <> snd (method_fields m) ->
        res !! k = None)
  /\ (forall answers',
        answers' !! fst (method_fields m) = answers !! fst (method_fields m) ->
        answers' !! snd (method_fields m) = answers !! snd (method_fields m) ->
        grade m answers' truth = res).
Proof.
  cbv zeta. rewrite grade_as_inserts.
  pose proof (method_fields_distinct m) as Hne.
  split; [| split; [| split]].
  - rewrite lookup_insert_ne by congruence. apply lookup_insert_eq.
  - apply lookup_insert_eq.
  - intros k H1 H2.
    rewrite !lookup_insert_ne by congruence. apply lookup_empty.
  - intros answers' H1 H2. rewrite grade_as_inserts.
    unfold read_answer, answer_or_zero. rewrite H1, H2. reflexivity.
Qed.

Lemma grade_two_fields_witness :
  grade pppm {[ "cap_ann"%string := "7"%string ]} (computeGameTruth small_need_scenario END)
    !! "cap_ann"%string = None.
Proof.
  apply (grade_two_fields pppm {[ "cap_ann"%string := "7"%string ]}
           (computeGameTruth small_need_scenario END));
    discriminate.
Defined.

(** X19. One grading action adds 1 to the attempts and 2 to the fields
    graded, split between correct and incorrect by the two marks; no
    counter ever goes down, and the all-correct counter moves, by 1,
    exactly when both fields are correct. *)
Theorem grade_stats_update (m : Method) (answers : gmap string string)
    (truth : GameTruth) (s : Stats) :
  let vc := gradeOne (read_answer answers (fst (method_fields m)))
                     (Fin (method_capital m truth)) in
  let vs := gradeOne (read_answer answers (snd (method_fields m)))
                     (Fin (method_savings m truth)) in
  let s' := grade_stats (grade m answers truth) s in
  attempted s' = attempted s + 1
  /\ correct_fields s'
     = correct_fields s + Z.b2z (is_correct vc) + Z.b2z (is_correct vs)
  /\ incorrect_fields s'
     = incorrect_fields s + Z.b2z (negb (is_correct vc))
       + Z.b2z (negb (is_correct vs))
  /\ allCorrect s' = allCorrect s + Z.b2z (is_correct vc && is_correct vs).
Proof.
  cbv zeta. unfold grade_stats. cbn [attempted allCorrect correct_fields incorrect_fields].
  pose proof (grade_map_to_list m answers truth) as Hperm.
  rewrite (filter_length_Permutation _ _ _ Hperm).
  rewrite (Permutation_length Hperm).
  cbn [List.filter length snd].
  destruct (gradeOne (read_answer answers (fst (method_fields m))) _),
           (gradeOne (read_answer answers (snd (method_fields m))) _);
    cbn; repeat split; lia.
Qed.

(** ** The parsers of [utils/formatters.ts] *)

(** Strings are sequences of code units below 256. *)

(** The characters that the pattern [[^0-9\-]] does not match. *)
Definition integer_char (c : ascii) : bool := is_digit c || Ascii.eqb c "-".

(** [s.replace(/[^0-9\-]/g, "")] *)
Fixpoint strip_non_integer (s : string) : string :=
  match s with
  | EmptyString => EmptyString
  | String c s' =>
      if integer_char c then String c (strip_non_integer s')
      else strip_non_integer s'
  end.

(** [parseInt(s, 10)] on a string of digits and minus signs: an
    optional minus and the longest run of digits after it; [None]
    stands for NaN, the result when there is no digit. *)
Definition parseInt10 (s : string) : option Z :=
  let (neg, s1) :=
    match s with
    | String "-"%char s' => (true, s')
    | _ => (false, s)
    end in
  match fst (span_digits s1) with
  | [] => None
  | ds => Some (if neg then - digits_value ds else digits_value ds)
  end.

(** [parseInteger]: strip, [parseInt], and 0 for NaN. *)
Definition parseInteger (input : string) : Z :=
  match parseInt10 (strip_non_integer input) with
  | Some n => n
  | None => 0
  end.

(** White space and line terminators below 256: tab, line feed,
    vertical tab, form feed, carriage return, space, no-break space. *)
Definition is_space (c : ascii) : bool :=
  let n := N_of_ascii c in
  ((9 <=? n) && (n <=? 13) || (n =? 32) || (n =? 160))%N.

Fixpoint trim_left (s : string) : string :=
  match s with
  | String c s' => if is_space c then trim_left s' else s
  | EmptyString => EmptyString
  end.

Fixpoint trim_right (s : string) : string :=
  match s with
  | String c s' =>
      match trim_right s' with
      | EmptyString => if is_space c then EmptyString else String c EmptyString
      | rest => String c rest
      end
  | EmptyString => EmptyString
  end.

(** [s.trim()] *)
Definition trim (s : string) : string := trim_right (trim_left s).

(** [/%/.test(s)] *)
Fixpoint has_percent (s : string) : bool :=
  match s with
  | String c s' => Ascii.eqb c "%" || has_percent s'
  | EmptyString => false
  end.

(** [parsePercentToDecimal] *)
Definition parsePercentToDecimal (input : string) : Q :=
  let raw := trim input in
  match raw with
  | EmptyString => 0%Q
  | _ =>
      let hasPct := has_percent raw in
      let cleaned := strip_non_numeric raw in
      match parseFloat cleaned with
      | NaN => 0%Q
      | Fin n => if hasPct || Qlt_b 1 n then (n / 100)%Q else n
      end
  end.

Example parsePercentToDecimal_examples :
  (parsePercentToDecimal "5%" == 0.05)%Q
  /\ (parsePercentToDecimal " 7.5 " == 0.075)%Q
  /\ (parsePercentToDecimal "0.08" == 0.08)%Q
  /\ (parsePercentToDecimal "1" == 1)%Q
  /\ (parsePercentToDecimal "  " == 0)%Q
  /\ (parsePercentToDecimal "n/a" == 0)%Q.
Proof. repeat split; vm_compute; reflexivity. Qed.

Example parseInteger_examples :
  parseInteger "25 years" = 25 /\ parseInteger "1,250" = 1250
  /\ parseInteger "-3" = -3 /\ parseInteger "12.5" = 125
  /\ parseInteger "" = 0 /\ parseInteger "abc" = 0 /\ parseInteger "4-5" = 4.
Proof. repeat split. Qed.

(** ** Parsers: formatting is ignored *)

Fixpoint string_forallb (p : ascii -> bool) (s : string) : bool :=
  match s with
  | String c s' => p c && string_forallb p s'
  | EmptyString => true
  end.

Lemma strip_non_numeric_app s1 s2 :
  strip_non_numeric (s1 ++ s2)
  = (strip_non_numeric s1 ++ strip_non_numeric s2)%string.
Proof.
  induction s1 as [| c s1 IH]; simpl; [reflexivity |].
  destruct (numeric_char c); simpl; rewrite IH; reflexivity.
Qed.



Lemma strip_non_integer_app s1 s2 :
  strip_non_integer (s1 ++ s2)
  = (strip_non_integer s1 ++ strip_non_integer s2)%string.
Proof.
  induction s1 as [| c s1 IH]; simpl; [reflexivity |].
  destruct (integer_char c); simpl; rewrite IH; reflexivity.
Qed.

Lemma strip_non_integer_noise s :
  string_forallb (fun c => negb (integer_char c)) s = true ->
  strip_non_integer s = EmptyString.
Proof.
  induction s as [| c s IH]; cbn; [reflexivity |].
  intros H. apply andb_true_iff in H. destruct H as [Hc Hs].
  apply negb_true_iff in Hc. rewrite Hc. apply IH, Hs.
Qed.




(** X21. [parseInteger] keeps only digits and minus signs: any other
    character changes nothing wherever it stands.  A decimal point is
    such a character, so the digits after it are appended, not cut off
    (["12.5"] is 125). *)
Theorem integer_formatting_ignored (s1 noise s2 : string)
    (Hnoise : string_forallb (fun c => negb (integer_char c)) noise = true) :
  parseInteger (s1 ++ noise ++ s2) = parseInteger (s1 ++ s2).
Proof.
  unfold parseInteger.
  rewrite !strip_non_integer_app, (strip_non_integer_noise _ Hnoise).
  reflexivity.
Qed.

Lemma integer_formatting_ignored_witness :
  parseInteger ("12" ++ "." ++ "5") = parseInteger ("12" ++ "5").
Proof. apply (integer_formatting_ignored "12" "." "5"). reflexivity. Defined.

(** ** Percent entry *)

Lemma is_space_not_numeric c : is_space c = true -> numeric_char c = false.
Proof.
  destruct c as [[] [] [] [] [] [] [] []]; cbn; intros H;
    first [reflexivity | discriminate H].
Qed.

Lemma is_space_not_percent c : is_space c = true -> Ascii.eqb c "%" = false.
Proof.
  destruct c as [[] [] [] [] [] [] [] []]; cbn; intros H;
    first [reflexivity | discriminate H].
Qed.

Lemma strip_trim_left s : strip_non_numeric (trim_left s) = strip_non_numeric s.
Proof.
  induction s as [| c s IH]; [reflexivity |].
  cbn [trim_left]. destruct (is_space c) eqn:E; [| reflexivity].
  rewrite IH. cbn [strip_non_numeric].
  rewrite (is_space_not_numeric c E). reflexivity.
Qed.

Lemma strip_trim_right s : strip_non_numeric (trim_right s) = strip_non_numeric s.
Proof.
  induction s as [| c s IH]; [reflexivity |].
  cbn [trim_right]. destruct (trim_right s) as [| c' rest] eqn:Et.
  - destruct (is_space c) eqn:E.
    + cbn [strip_non_numeric]. rewrite (is_space_not_numeric c E), <- IH.
      reflexivity.
    + cbn [strip_non_numeric]. rewrite <- IH. reflexivity.
  - cbn [strip_non_numeric] in *. rewrite IH. reflexivity.
Qed.

Lemma has_percent_trim_left s : has_percent (trim_left s) = has_percent s.
Proof.
  induction s as [| c s IH]; [reflexivity |].
  cbn [trim_left]. destruct (is_space c) eqn:E; [| reflexivity].
  rewrite IH. cbn [has_percent].
  rewrite (is_space_not_percent c E). reflexivity.
Qed.

Lemma has_percent_trim_right s : has_percent (trim_right s) = has_percent s.
Proof.
  induction s as [| c s IH]; [reflexivity |].
  cbn [trim_right]. destruct (trim_right s) as [| c' rest] eqn:Et.
  - destruct (is_space c) eqn:E.
    + cbn [has_percent]. rewrite (is_space_not_percent c E), <- IH.
      reflexivity.
    + cbn [has_percent]. rewrite <- IH. reflexivity.
  - cbn [has_percent] in *. rewrite IH. reflexivity.
Qed.

(** X22. [parsePercentToDecimal] reads the number as
    [parseCurrencyToNumber] does and divides it by 100 when the entry
    holds a percent sign or the number is above 1; otherwise it returns
    the number itself.  The trimming and the early return for a blank
    entry change nothing.  So [5], [5%] and [0.05] are the same rate,
    while an entry of exactly [1] is 100%. *)
Theorem parsePercentToDecimal_rule (input : string) :
  let n := parseCurrencyToNumber input in
  (parsePercentToDecimal input
   == if has_percent input || Qlt_b 1 n then n / 100 else n)%Q.
Proof.
  cbv zeta. unfold parsePercentToDecimal, parseCurrencyToNumber, trim.
  assert (Es : strip_non_numeric (trim_right (trim_left input))
               = strip_non_numeric input)
    by (rewrite strip_trim_right; apply strip_trim_left).
  assert (Ep : has_percent (trim_right (trim_left input)) = has_percent input)
    by (rewrite has_percent_trim_right; apply has_percent_trim_left).
  destruct (trim_right (trim_left input)) as [| c rest] eqn:Et.
  - cbn in Es. rewrite <- Es. cbn in Ep. rewrite <- Ep. cbn. reflexivity.
  - rewrite Es, Ep. destruct (parseFloat (strip_non_numeric input)) as [| n].
    + destruct (has_percent input); cbn; reflexivity.
    + reflexivity.
Qed.

(** ** Free entry: the canvas form and the editable fields *)

Module Canvas.

(** The raw strings of the canvas form ([canvasInputs]). *)
Record Inputs : Set := {
  income : string;  wrr : string;  ss : string;
  rwle : string;  rle : string;  g : string;  r : string;
  rRetire : string;  pvcur : string;  bequest : string }.

End Canvas.

Inductive Mode : Set := game | canvas.

(** [s || "0"] *)
Definition or_zero (s : string) : string :=
  match s with EmptyString => "0"%string | _ => s end.

(** [!(a > b)] *)
Definition not_above (a b : Q) : bool := negb (Qlt_b b a).

(** The scenario that [submitCanvas] stores: in canvas mode the one
    rebuilt from the form, in game mode the current one. *)
Definition submitCanvas_scenario (mode : Mode) (gameScenario : GameScenario)
    (canvasInputs : Canvas.Inputs) : GameScenario :=
  match mode with
  | game => gameScenario
  | canvas =>
      let income := parseCurrencyToNumber (or_zero (Canvas.income canvasInputs)) in
      let wrr := parsePercentToDecimal (or_zero (Canvas.wrr canvasInputs)) in
      let ss := parseCurrencyToNumber (or_zero (Canvas.ss canvasInputs)) in
      let rwle := parseInteger (or_zero (Canvas.rwle canvasInputs)) in
      let rle := parseInteger (or_zero (Canvas.rle canvasInputs)) in
      let g := parsePercentToDecimal (or_zero (Canvas.g canvasInputs)) in
      let r := parsePercentToDecimal (or_zero (Canvas.r canvasInputs)) in
      let r := if not_above r g then (g + 0.0005)%Q else r in
      let rRetire :=
        match Canvas.rRetire canvasInputs with
        | EmptyString => r
        | s => parsePercentToDecimal s
        end in
      let rRetire := if not_above rRetire g then (g + 0.0005)%Q else rRetire in
      let pvcur := parseCurrencyToNumber (or_zero (Canvas.pvcur canvasInputs)) in
      let bequest :=
        match Canvas.bequest canvasInputs with
        | EmptyString => None
        | s => Some (parseCurrencyToNumber s)
        end in
      {| name := name gameScenario; bio := bio gameScenario;
         income := income; wrr := wrr; ss := ss; rwle := rwle; rle := rle;
         g := g; r := r; pvcur := pvcur;
         rRetire := Some rRetire; bequest := bequest |}
  end.

(** [submitCanvas]: the stored scenario and the truth computed from it;
    the component fixes the timing to ["END"]. *)
Definition submitCanvas (mode : Mode) (gameScenario : GameScenario)
    (canvasInputs : Canvas.Inputs) : GameScenario * GameTruth :=
  let scn := submitCanvas_scenario mode gameScenario canvasInputs in
  (scn, computeGameTruth scn END).

(** The scenario with another inflation rate or in-retirement rate. *)
Definition with_g (scn : GameScenario) (g' : Q) : GameScenario :=
  {| name := name scn; bio := bio scn; income := income scn; wrr := wrr scn;
     ss := ss scn; rwle := rwle scn; rle := rle scn; g := g'; r := r scn;
     pvcur := pvcur scn; rRetire := rRetire scn; bequest := bequest scn |}.

Definition with_rRetire (scn : GameScenario) (x : option Q) : GameScenario :=
  {| name := name scn; bio := bio scn; income := income scn; wrr := wrr scn;
     ss := ss scn; rwle := rwle scn; rle := rle scn; g := g scn; r := r scn;
     pvcur := pvcur scn; rRetire := x; bequest := bequest scn |}.

(** The [onChange] handlers of the Return, Return-in-retirement and
    Inflation fields of the game: the new scenario, from which the
    truth is recomputed. *)
Definition edit_r (scn : GameScenario) (text : string) : GameScenario :=
  let v := parsePercentToDecimal text in
  let ns := with_r scn v in
  if not_above (r ns) (g ns) then with_r ns (g ns + 0.0005)%Q else ns.

Definition edit_rRetire (scn : GameScenario) (text : string) : GameScenario :=
  let v := parsePercentToDecimal text in
  let ns := with_rRetire scn (Some v) in
  if not_above v (g ns) then with_rRetire ns (Some (g ns + 0.0005)%Q) else ns.

Definition edit_g (scn : GameScenario) (text : string) : GameScenario :=
  let v := parsePercentToDecimal text in
  with_g scn v.

Lemma coerce_above g x :
  (g < (if not_above x g then (g + 0.0005)%Q else x))%Q.
Proof.
  unfold not_above. destruct (Qlt_b g x) eqn:E; cbn.
  - apply Qlt_b_iff. exact E.
  - lra.
Qed.

Lemma computeRealRate_pos r g :
  (-1 < g)%Q -> (g < r)%Q -> (0 < computeRealRate r g)%Q.
Proof.
  intros Hg Hgr. unfold computeRealRate.
  assert (H : (1 < (1 + r) / (1 + g))%Q) by (apply Qlt_shift_div_l; lra).
  set (X := ((1 + r) / (1 + g))%Q) in *. clearbody X. lra.
Qed.

Lemma computeRealRate_nonneg r g :
  (-1 < g)%Q -> (g < r)%Q -> (0 <= computeRealRate r g)%Q.
Proof. intros Hg Hgr. apply Qlt_le_weak, computeRealRate_pos; assumption. Qed.

Definition blank_inputs : Canvas.Inputs :=
  {| Canvas.income := ""; Canvas.wrr := ""; Canvas.ss := "";
     Canvas.rwle := ""; Canvas.rle := ""; Canvas.g := ""; Canvas.r := "";
     Canvas.rRetire := ""; Canvas.pvcur := ""; Canvas.bequest := "" |}.

(** X23. For a canvas form whose inflation entry is at most 1000 in
    absolute value (100 000%), the scenario that [submitCanvas] stores
    has [r > g] and an in-retirement rate that is present and above
    [g], and, when that inflation is above -100%, the real rate of the
    stored truth is not negative.  For any form, a blank in-retirement
    entry takes the (already coerced) [r] and a blank bequest is no
    bequest.  (The bound keeps the 0.0005 that the guard adds from
    being lost in the rounding of [g + 0.0005].) *)
Theorem submitCanvas_rates (prev : GameScenario) (inputs : Canvas.Inputs) :
  let scn := fst (submitCanvas canvas prev inputs) in
  let t := snd (submitCanvas canvas prev inputs) in
  ((Qabs (g scn) <= 1000)%Q ->
   (g scn < r scn)%Q
   /\ (exists x, rRetire scn = Some x /\ (g scn < x)%Q)
   /\ ((-1 < g scn)%Q -> (0 <= r_real t)%Q))
  /\ (Canvas.rRetire inputs = EmptyString -> rRetire scn = Some (r scn))
  /\ (Canvas.bequest inputs = EmptyString -> bequest scn = None).
Proof.
  cbn -[computeRealRate parsePercentToDecimal parseCurrencyToNumber parseInteger Qabs].
  match goal with |- context [not_above ?x ?gg] =>
    pose proof (coerce_above gg x) as Hr;
    set (r0 := if not_above x gg then (gg + 0.0005)%Q else x) in * end.
  match goal with |- context [not_above ?x ?gg] =>
    pose proof (coerce_above gg x) as Hret;
    set (rr0 := if not_above x gg then (gg + 0.0005)%Q else x) in * end.
  split; [| split].
  - intros _.
    split; [exact Hr |].
    split; [eexists; split; [reflexivity | exact Hret] |].
    intros Hg. apply computeRealRate_nonneg; [exact Hg | exact Hret].
  - intros E. unfold rr0. rewrite E.
    unfold not_above. apply Qlt_b_iff in Hr. rewrite Hr. reflexivity.
  - intros ->. reflexivity.
Qed.

Lemma submitCanvas_rates_witness :
  let scn := fst (submitCanvas canvas small_need_scenario blank_inputs) in
  let t := snd (submitCanvas canvas small_need_scenario blank_inputs) in
  ((g scn < r scn)%Q /\ (0 <= r_real t)%Q)
  /\ rRetire scn = Some (r scn) /\ bequest scn = None.
Proof.
  destruct (submitCanvas_rates small_need_scenario blank_inputs)
    as (H0 & H1 & H2).
  split; [| split; [apply H1; reflexivity | apply H2; reflexivity]].
  destruct H0 as (Hr & _ & Hreal); [vm_compute; discriminate |].
  split; [exact Hr | apply Hreal; vm_compute; reflexivity].
Defined.

(** The bound at work, in binary64: at an inflation of 10^16 the 0.0005
    of the guard is absorbed, and the coerced return equals inflation. *)
Example coercion_absorbed_at_large_inflation :
  (F64.coerce_above 0 10000000000000000 =? 10000000000000000)%float = true
  /\ (1000 <? F64.coerce_above 0 1000)%float = true
  /\ (-1000 <? F64.coerce_above (-2000) (-1000))%float = true.
Proof. repeat split; vm_compute; reflexivity. Qed.

(** X24. In a game scenario whose inflation is at most 1000 in absolute
    value, editing the Return field leaves [r > g] and editing the
    Return-in-retirement field leaves an in-retirement rate above [g];
    neither edit touches any other field.  Editing the Inflation field
    changes [g] alone and applies no such guard. *)
Theorem edited_rates_stay_above_inflation (scn : GameScenario) (text : string) :
  (((Qabs (g scn) <= 1000)%Q -> (g (edit_r scn text) < r (edit_r scn text))%Q)
   /\ with_r (edit_r scn text) (r scn) = with_r scn (r scn))
  /\ (((Qabs (g scn) <= 1000)%Q ->
       exists x, rRetire (edit_rRetire scn text) = Some x
                 /\ (g (edit_rRetire scn text) < x)%Q)
      /\ with_rRetire (edit_rRetire scn text) (rRetire scn)
         = with_rRetire scn (rRetire scn))
  /\ (r (edit_g scn text) = r scn /\ rRetire (edit_g scn text) = rRetire scn
      /\ g (edit_g scn text) = parsePercentToDecimal text).
Proof.
  split; [| split].
  - unfold edit_r. cbn [with_r r g].
    pose proof (coerce_above (g scn) (parsePercentToDecimal text)) as H.
    destruct (not_above (parsePercentToDecimal text) (g scn));
      split; [intros _; exact H | reflexivity | intros _; exact H | reflexivity].
  - unfold edit_rRetire. cbn [with_rRetire g].
    pose proof (coerce_above (g scn) (parsePercentToDecimal text)) as H.
    destruct (not_above (parsePercentToDecimal text) (g scn));
      (split; [intros _; eexists; split; [reflexivity | exact H] | reflexivity]).
  - repeat split.
Qed.

Lemma edited_rates_stay_above_inflation_witness :
  (g (edit_r small_need_scenario "-3%") < r (edit_r small_need_scenario "-3%"))%Q
  /\ exists x, rRetire (edit_rRetire small_need_scenario "-3%") = Some x
               /\ (g (edit_rRetire small_need_scenario "-3%") < x)%Q.
Proof.
  destruct (edited_rates_stay_above_inflation small_need_scenario "-3%")
    as ((H1 & _) & (H2 & _) & _).
  split; [apply H1 | apply H2]; vm_compute; discriminate.
Defined.

(** The missing guard at work: raising inflation above the return. *)
Example edit_g_breaks_rate_order :
  (g small_need_scenario < r small_need_scenario)%Q
  /\ (r (edit_g small_need_scenario "9%") < g (edit_g small_need_scenario "9%"))%Q.
Proof. split; vm_compute; reflexivity. Qed.

(** ** The how-to panel *)

Module HowTo.






End HowTo.






(** ** The perpetual-capital formulas *)

Lemma Qdiv_by_fraction_le x d : (0 <= x)%Q -> (0 < d)%Q -> (d <= 1)%Q -> (x <= x / d)%Q.
Proof.
  intros Hx Hd Hd1. apply Qle_shift_div_l; [exact Hd |].
  assert (H : (0 <= x * (1 - d))%Q) by (apply Qmult_le_0_compat; lra).
  lra.
Qed.

(** X26. [capitalCPM] and [capitalPPPM] never return less than the
    annuity capital they are given: for a capital that is not negative,
    between 1 and 100 years, a rate between 0.01% and 100% and, for
    [capitalPPPM], an inflation of 0 or more that is at least 0.01%
    below the rate.  (The margin keeps the divisor away from zero.) *)
Theorem perpetual_capitals_at_least_capA (capA0 r g : Q) (RLE : Z)
    (Hcap : (0 <= capA0)%Q)
    (Hr : (0.0001 <= r <= 1)%Q)
    (Hg : (0 <= g)%Q) (Hgr : (g + 0.0001 <= r)%Q)
    (Hn : 1 <= RLE <= 100) :
  (capA0 <= capitalCPM capA0 r RLE)%Q
  /\ (capA0 <= capitalPPPM capA0 r g RLE)%Q.
Proof.
  assert (H0 : (0 < 0.0001)%Q) by reflexivity.
  set (eps := 0.0001%Q) in *. clearbody eps.
  unfold capitalCPM, capitalPPPM. cbv zeta. split.
  - assert (Hlt : ((1 + r) ^ (- RLE) < 1)%Q)
      by (apply Qpower_neg_lt_1; [lra | lia]).
    assert (Hpos : (0 < (1 + r) ^ (- RLE))%Q) by (apply Qpower_0_lt; lra).
    apply Qdiv_by_fraction_le; [exact Hcap | lra | lra].
  - assert (Hq0 : (0 < (1 + g) / (1 + r))%Q) by (apply Qdiv_pos; lra).
    assert (Hq1 : ((1 + g) / (1 + r) < 1)%Q)
      by (apply Qlt_shift_div_r; lra).
    assert (Hlt : (((1 + g) / (1 + r)) ^ RLE < 1)%Q)
      by (apply Qpower_lt_1; [exact Hq0 | exact Hq1 | lia]).
    assert (Hpos : (0 < ((1 + g) / (1 + r)) ^ RLE)%Q)
      by (apply Qpower_0_lt; exact Hq0).
    apply Qdiv_by_fraction_le; [exact Hcap | lra | lra].
Qed.

Lemma perpetual_capitals_at_least_capA_witness :
  (1000 <= capitalCPM 1000 0.05 20)%Q /\ (1000 <= capitalPPPM 1000 0.05 0.03 20)%Q.
Proof.
  apply (perpetual_capitals_at_least_capA 1000 0.05 0.03 20);
    [vm_compute; discriminate | split; vm_compute; discriminate
    | vm_compute; discriminate | vm_compute; discriminate | lia].
Defined.

(** ** Parsers: a plain decimal entry *)

(** The characters of a list of decimal digits. *)
Fixpoint digits_string (ds : list Z) : string :=
  match ds with
  | [] => EmptyString
  | d :: ds' => String (ascii_of_N (Z.to_N (d + 48))) (digits_string ds')
  end.

Definition is_decimal_digit (d : Z) : Prop := 0 <= d <= 9.

Lemma digit_char d :
  is_decimal_digit d ->
  is_digit (ascii_of_N (Z.to_N (d + 48))) = true
  /\ digit_value (ascii_of_N (Z.to_N (d + 48))) = d
  /\ numeric_char (ascii_of_N (Z.to_N (d + 48))) = true
  /\ Ascii.eqb (ascii_of_N (Z.to_N (d + 48))) "-" = false.
Proof.
  unfold is_decimal_digit. intros H.
  assert (Hd : d = 0 \/ d = 1 \/ d = 2 \/ d = 3 \/ d = 4 \/ d = 5 \/ d = 6
               \/ d = 7 \/ d = 8 \/ d = 9) by lia.
  repeat (destruct Hd as [-> | Hd]; [repeat split |]).
  subst d. repeat split.
Qed.

Lemma span_digits_digits_string ds rest :
  Forall is_decimal_digit ds ->
  match rest with String c _ => is_digit c = false | EmptyString => True end ->
  span_digits (digits_string ds ++ rest) = (ds, rest).
Proof.
  intros Hds Hrest. induction Hds as [| d ds Hd _ IH]; simpl.
  - destruct rest as [| c rest']; [reflexivity |].
    simpl. rewrite Hrest. reflexivity.
  - destruct (digit_char d Hd) as (H1 & H2 & _).
    rewrite H1, IH, H2. reflexivity.
Qed.

Lemma strip_digits_string ds :
  Forall is_decimal_digit ds ->
  strip_non_numeric (digits_string ds) = digits_string ds.
Proof.
  induction 1 as [| d ds Hd _ IH]; simpl; [reflexivity |].
  destruct (digit_char d Hd) as (_ & _ & H3 & _). rewrite H3, IH. reflexivity.
Qed.

Lemma string_app_nil (s : string) : (s ++ "")%string = s.
Proof.
  induction s as [| c s IH]; [reflexivity |].
  change (String c s ++ "")%string with (String c (s ++ "")).
  f_equal. exact IH.
Qed.

(** [parseFloat] after its sign has been read. *)
Definition parseFloat_unsigned (neg : bool) (s1 : string) : jsnum :=
  let (ip, s2) := span_digits s1 in
  let fp :=
    match s2 with
    | String "."%char s3 => fst (span_digits s3)
    | _ => []
    end in
  match ip, fp with
  | [], [] => NaN
  | _, _ =>
      let v := (inject_Z (digits_value ip)
                + inject_Z (digits_value fp) / inject_Z (10 ^ Z.of_nat (length fp)))%Q in
      Fin (if neg then (- v)%Q else v)
  end.

Lemma parseFloat_no_sign c s :
  Ascii.eqb c "-" = false ->
  parseFloat (String c s) = parseFloat_unsigned false (String c s).
Proof.
  intros H. unfold parseFloat, parseFloat_unsigned.
  destruct c as [[] [] [] [] [] [] [] []];
    first [discriminate H | reflexivity].
Qed.

Lemma parseFloat_sign s :
  parseFloat (String "-"%char s) = parseFloat_unsigned true s.
Proof. reflexivity. Qed.

(** In the exact reading, digits, a dot and digits are the number they
    spell: the integer part plus the fraction digits over the matching
    power of ten, negated after a leading minus. *)
Lemma decimal_entry_exact (ip fp : list Z)
    (Hip : Forall is_decimal_digit ip) (Hfp : Forall is_decimal_digit fp)
    (Hne : ip <> []) :
  let v := (inject_Z (digits_value ip)
            + inject_Z (digits_value fp) / inject_Z (10 ^ Z.of_nat (length fp)))%Q in
  parseCurrencyToNumber (digits_string ip ++ "." ++ digits_string fp) = v
  /\ parseCurrencyToNumber ("-" ++ digits_string ip ++ "." ++ digits_string fp)
     = (- v)%Q.
Proof.
  cbv zeta.
  assert (Hstrip : strip_non_numeric (digits_string ip ++ "." ++ digits_string fp)
                   = (digits_string ip ++ "." ++ digits_string fp)%string).
  { rewrite !strip_non_numeric_app, !strip_digits_string by assumption.
    reflexivity. }
  assert (Hspan : span_digits (digits_string ip ++ "." ++ digits_string fp)
                  = (ip, ("." ++ digits_string fp)%string)).
  { apply span_digits_digits_string; [exact Hip | reflexivity]. }
  assert (Hfrac : fst (span_digits (digits_string fp)) = fp).
  { rewrite <- (string_app_nil (digits_string fp)).
    rewrite span_digits_digits_string; [reflexivity | exact Hfp | exact I]. }
  assert (Hbody : forall neg,
    parseFloat_unsigned neg (digits_string ip ++ "." ++ digits_string fp)
    = Fin (if neg
           then (- (inject_Z (digits_value ip)
                    + inject_Z (digits_value fp)
                      / inject_Z (10 ^ Z.of_nat (length fp))))%Q
           else (inject_Z (digits_value ip)
                 + inject_Z (digits_value fp)
                   / inject_Z (10 ^ Z.of_nat (length fp)))%Q)).
  { intros neg. unfold parseFloat_unsigned. rewrite Hspan.
    change ("." ++ digits_string fp)%string with (String "."%char (digits_string fp)).
    cbv iota beta. rewrite Hfrac.
    destruct ip; [contradiction | reflexivity]. }
  split.
  - unfold parseCurrencyToNumber. rewrite Hstrip.
    destruct ip as [| d ip']; [contradiction |].
    inversion Hip as [| ? ? Hd Hip' ]; subst.
    destruct (digit_char d Hd) as (_ & _ & _ & Hminus).
    change (digits_string (d :: ip') ++ "." ++ digits_string fp)%string
      with (String (ascii_of_N (Z.to_N (d + 48)))
              (digits_string ip' ++ "." ++ digits_string fp)) at 1.
    rewrite (parseFloat_no_sign _ _ Hminus).
    change (String (ascii_of_N (Z.to_N (d + 48)))
              (digits_string ip' ++ "." ++ digits_string fp))
      with (digits_string (d :: ip') ++ "." ++ digits_string fp)%string.
    rewrite Hbody. reflexivity.
  - unfold parseCurrencyToNumber.
    change ("-" ++ digits_string ip ++ "." ++ digits_string fp)%string
      with (String "-"%char (digits_string ip ++ "." ++ digits_string fp)).
    cbn [strip_non_numeric]. change (numeric_char "-") with true. cbv iota.
    rewrite Hstrip, parseFloat_sign, Hbody. reflexivity.
Qed.

Lemma digits_value_zeros k : digits_value (repeat 0 k) = 0.
Proof. unfold digits_value. induction k as [| k IH]; [reflexivity | exact IH]. Qed.

Lemma zeros_are_digits k : Forall is_decimal_digit (repeat 0 k).
Proof.
  induction k as [| k IH]; [constructor |].
  constructor; [unfold is_decimal_digit; lia | exact IH].
Qed.

Lemma whole_entry_no_dot (ip : list Z) :
  Forall is_decimal_digit ip -> ip <> [] ->
  (parseCurrencyToNumber (digits_string ip) == inject_Z (digits_value ip))%Q.
Proof.
  intros Hip Hne. unfold parseCurrencyToNumber.
  rewrite strip_digits_string by exact Hip.
  assert (Hspan : span_digits (digits_string ip) = (ip, EmptyString)).
  { rewrite <- (string_app_nil (digits_string ip)) at 1.
    apply span_digits_digits_string; [exact Hip | exact I]. }
  destruct ip as [| d ip']; [contradiction |].
  inversion Hip as [| ? ? Hd Hip' ]; subst.
  destruct (digit_char d Hd) as (_ & _ & _ & Hminus).
  change (digits_string (d :: ip'))
    with (String (ascii_of_N (Z.to_N (d + 48))) (digits_string ip')) at 1.
  rewrite (parseFloat_no_sign _ _ Hminus).
  change (String (ascii_of_N (Z.to_N (d + 48))) (digits_string ip'))
    with (digits_string (d :: ip')).
  unfold parseFloat_unsigned. rewrite Hspan. cbv iota beta.
  change (inject_Z (digits_value []) / inject_Z (10 ^ Z.of_nat (length (@nil Z))))%Q
    with (0 / 1)%Q.
  field.
Qed.

(** X27. A whole-number entry of 1 to 15 digits reads as exactly that
    number, written bare or with a dot and any run of zeros after it,
    and as its negation after a leading minus.  (Fifteen digits stay
    below 2^53, so that the number read is the number written.) *)
Theorem whole_entry_value (ip : list Z) (k : nat)
    (Hip : Forall is_decimal_digit ip)
    (Hlen : (1 <= length ip <= 15)%nat) :
  let n := inject_Z (digits_value ip) in
  (parseCurrencyToNumber (digits_string ip) == n)%Q
  /\ (parseCurrencyToNumber
        (digits_string ip ++ "." ++ digits_string (repeat 0%Z k)) == n)%Q
  /\ (parseCurrencyToNumber
        ("-" ++ digits_string ip ++ "." ++ digits_string (repeat 0%Z k)) == - n)%Q.
Proof.
  cbv zeta.
  assert (Hne : ip <> []) by (intros ->; cbn in Hlen; lia).
  destruct (decimal_entry_exact ip (repeat 0%Z k) Hip (zeros_are_digits k) Hne)
    as [Epos Eneg].
  assert (Ev : (inject_Z (digits_value ip)
                + inject_Z (digits_value (repeat 0%Z k))
                  / inject_Z (10 ^ Z.of_nat (length (repeat 0%Z k)))
                == inject_Z (digits_value ip))%Q).
  { rewrite digits_value_zeros. unfold Qdiv.
    change (inject_Z 0) with 0%Q. ring. }
  split; [apply whole_entry_no_dot; assumption |].
  split.
  - rewrite Epos. exact Ev.
  - rewrite Eneg, Ev. reflexivity.
Qed.

Lemma whole_entry_value_witness :
  (parseCurrencyToNumber (digits_string [1; 2]%Z ++ "." ++ digits_string (repeat 0%Z 2))
   == inject_Z (digits_value [1; 2]%Z))%Q.
Proof.
  assert (Hip : Forall is_decimal_digit [1; 2]%Z)
    by (repeat constructor; unfold is_decimal_digit; lia).
  assert (Hlen : (1 <= length [1; 2]%Z <= 15)%nat) by (cbn; lia).
  destruct (whole_entry_value [1; 2]%Z 2 Hip Hlen) as (_ & H & _).
  exact H.
Defined.

(** ** Grader: the tolerance as one number *)

Lemma Qabs_pos_of_nonzero t : ~ (t == 0)%Q -> (0 < Qabs t)%Q.
Proof.
  intros Hne. pose proof (Qabs_nonneg t) as Hn. apply Qle_lteq in Hn.
  destruct Hn as [Hn | Hn]; [exact Hn |].
  exfalso. apply Hne. revert Hn. apply Qabs_case; intros; lra.
Qed.

Lemma Math_max_le a b x : (x <= Math_max a b)%Q <-> (x <= a)%Q \/ (x <= b)%Q.
Proof.
  unfold Math_max. destruct (Qle_bool a b) eqn:E.
  - apply Qle_bool_iff in E. split; [auto | intros [H | H]; lra].
  - apply Qle_bool_false_iff in E. split; [auto | intros [H | H]; lra].
Qed.

(** X28. A numeric answer is marked correct exactly when it is within
    the larger of 500 and 1% of the absolute truth.  So an exact answer
    is always correct, and an answer at least as close to the truth as
    a correct one is correct too. *)
Theorem gradeOne_tolerance_band (u t : Q) :
  (gradeOne (Fin u) (Fin t) = correct
   <-> (Qabs (u - t) <= Math_max 500 (0.01 * Qabs t))%Q)
  /\ gradeOne (Fin t) (Fin t) = correct
  /\ (forall u', (Qabs (u' - t) <= Qabs (u - t))%Q ->
        gradeOne (Fin u) (Fin t) = correct ->
        gradeOne (Fin u') (Fin t) = correct).
Proof.
  assert (Hband : forall v,
    gradeOne (Fin v) (Fin t) = correct
    <-> (Qabs (v - t) <= Math_max 500 (0.01 * Qabs t))%Q).
  { intros v. rewrite gradeOne_Fin, orb_true_iff, !Qle_bool_iff, Math_max_le.
    unfold relative_error. destruct (Qeq_bool t 0) eqn:Ht.
    - apply Qeq_bool_iff in Ht.
      assert (Hat : (Qabs t == 0)%Q) by (rewrite Ht; reflexivity).
      pose proof (Qabs_nonneg (v - t)) as Hn.
      destruct (Qlt_b 0 (Qabs (v - t))) eqn:Hpos.
      + apply Qlt_b_iff in Hpos.
        split; intros [H | H].
        * exfalso. lra.
        * left. exact H.
        * right. exact H.
        * exfalso. rewrite Hat in H. lra.
      + apply Qlt_b_false_iff in Hpos.
        split; intros _; [left; lra | right; lra].
    - assert (Hne : ~ (t == 0)%Q)
        by (intros C; apply Qeq_bool_iff in C; congruence).
      pose proof (Qabs_pos_of_nonzero t Hne) as Hat.
      set (a := Qabs (v - t)). set (b := Qabs t) in *. clearbody a b.
      split; intros [H | H].
      + right.
        assert (H1 : (a / b * b <= 0.01 * b)%Q)
          by (apply Qmult_le_compat_r; lra).
        assert (E : (a / b * b == a)%Q) by (field; lra).
        lra.
      + left. exact H.
      + right. exact H.
      + left. apply Qle_shift_div_r; [exact Hat | exact H]. }
  split; [apply Hband | split].
  - apply Hband.
    assert (E : (Qabs (t - t) == 0)%Q).
    { assert (E0 : (t - t == 0)%Q) by ring. rewrite E0. reflexivity. }
    rewrite E. apply Math_max_le. left. discriminate.
  - intros u' Hcloser Hu. apply Hband. apply Hband in Hu.
    apply Qle_trans with (y := Qabs (u - t)); assumption.
Qed.

Lemma gradeOne_tolerance_band_witness :
  gradeOne (Fin 100300) (Fin 100000) = correct.
Proof.
  apply (proj2 (proj2 (gradeOne_tolerance_band 100999 100000)) 100300%Q);
    [vm_compute; discriminate | reflexivity].
Defined.
